(** * fullscrn: a facade over the browser Fullscreen API

    A shallow embedding of the [fullscrn] module (the TypeScript source
    and its compiled ES form are the same program).  The module body is an
    immediately invoked function that probes the host [document] once,
    and returns either an inert instance or an instance whose methods
    bridge the host's events and promises to promises of its own.

    The program only makes sense inside a JavaScript host, so the
    development first fixes a small model of that host: values and
    their truthiness, the document's own properties, its event listener
    list, promises with their reaction jobs, and the host's tasks.  The
    facade itself is then transcribed line by line over that model. *)

From stdpp Require Import base option list gmap strings.

Local Open Scope string_scope.
Local Open Scope list_scope.

(** ** JavaScript values *)

Inductive JsVal : Type :=
  | VUndefined
  | VNull
  | VBool (b : bool)
  | VNum (n : Z)                (* integer-valued numbers *)
  | VNaN
  | VStr (s : string)
  | VDocument                   (* the host's document object *)
  | VObj (r : nat)              (* any other object, e.g. an Element *)
  | VFun (r : nat)              (* a host function *)
  | VPromise (a : nat)          (* an instance of Promise made by the host *)
  | VError (name : string).     (* an error object raised by the engine *)

#[global] Instance JsVal_eq_dec : EqDecision JsVal.
Proof. solve_decision. Defined.

(** ECMAScript ToBoolean. *)
Definition truthy (v : JsVal) : bool :=
  match v with
  | VUndefined | VNull | VNaN => false
  | VBool b => b
  | VNum n => negb (n =? 0)%Z
  | VStr s => negb (String.eqb s "")
  | VDocument | VObj _ | VFun _ | VPromise _ | VError _ => true
  end.

(** ** Callbacks

    Listeners are compared by identity when they are removed, so the
    functions that reach the host are kept as data.  Besides the
    application's own functions there are the two closures the facade
    creates, one per call of [request] or [exit]: each captures the
    [resolve] of the promise under construction (its index [p]) and the
    table row [fn] of the instance it belongs to. *)

Inductive Callback : Type :=
  | UserCb (n : nat)
  | OnFullScreenEntered (fn : list string) (p : nat)
  | OnFullScreenExit (fn : list string) (p : nat).

#[global] Instance Callback_eq_dec : EqDecision Callback.
Proof. solve_decision. Defined.

(** The promise a closure of the facade resolves, if it is one. *)
Definition closure_of (cb : Callback) : option nat :=
  match cb with
  | UserCb _ => None
  | OnFullScreenEntered _ p | OnFullScreenExit _ p => Some p
  end.

(** ** Promises *)

(** State of a promise the facade hands out ([Promise<void>]). *)
Inductive PState : Type :=
  | Pending
  | Fulfilled
  | Rejected (e : JsVal).

#[global] Instance PState_eq_dec : EqDecision PState.
Proof. solve_decision. Defined.

(** How the host settled one of its own promises. *)
Inductive Settled : Type :=
  | SFulfilled
  | SRejected (e : JsVal).

(** [promise.then(cb).catch(reject)] on host promise [r_on]: [cb] runs
    when it fulfils, [reject] of facade promise [r_reject] runs with the
    reason when it rejects (or with what [cb] threw). *)
Record Reaction : Type := mkReaction {
  r_on : nat;
  r_then : Callback;
  r_reject : nat
}.

(** The jobs that chain puts in the microtask queue.  When the host
    promise settles, the reaction of [then] is queued; it calls [cb] on
    fulfilment and settles the promise [then] returned, whose rejection
    queues the reaction of [catch], and only that one calls [reject]. *)
Inductive Job : Type :=
  | JThen (how : Settled) (cb : Callback) (p : nat)
  | JCatch (e : JsVal) (p : nat).

(** ** The host *)

Inductive CallResult : Type :=
  | Returns (v : JsVal)
  | Throws (e : JsVal).

Record HostCall : Type := mkCall {
  callee : nat;
  this_arg : JsVal;
  args : list JsVal
}.

Definition Listener : Type := string * Callback.

Record World : Type := mkWorld {
  (* own properties of the document, as [document[k]] reads them *)
  props : gmap string JsVal;
  (* properties of every other object *)
  obj_prop : nat -> string -> JsVal;
  (* what a host function does when called *)
  host_fun : nat -> JsVal -> list JsVal -> CallResult;
  (* the document's non-capturing event listeners, oldest first *)
  listeners : list Listener;
  (* the promises created by the facade, by index *)
  outcomes : list PState;
  (* host promises that are no longer pending *)
  settled : gmap nat Settled;
  (* reactions waiting on pending host promises *)
  reactions : list Reaction;
  (* the microtask queue *)
  jobs : list Job;
  (* host functions called so far *)
  calls : list HostCall;
  (* listeners invoked by event dispatch so far *)
  fired : list Callback
}.

Definition set_props (f : gmap string JsVal -> gmap string JsVal) (w : World) : World :=
  mkWorld (f (props w)) (obj_prop w) (host_fun w) (listeners w) (outcomes w)
          (settled w) (reactions w) (jobs w) (calls w) (fired w).
Definition set_listeners (f : list Listener -> list Listener) (w : World) : World :=
  mkWorld (props w) (obj_prop w) (host_fun w) (f (listeners w)) (outcomes w)
          (settled w) (reactions w) (jobs w) (calls w) (fired w).
Definition set_outcomes (f : list PState -> list PState) (w : World) : World :=
  mkWorld (props w) (obj_prop w) (host_fun w) (listeners w) (f (outcomes w))
          (settled w) (reactions w) (jobs w) (calls w) (fired w).
Definition set_settled (f : gmap nat Settled -> gmap nat Settled) (w : World) : World :=
  mkWorld (props w) (obj_prop w) (host_fun w) (listeners w) (outcomes w)
          (f (settled w)) (reactions w) (jobs w) (calls w) (fired w).
Definition set_reactions (f : list Reaction -> list Reaction) (w : World) : World :=
  mkWorld (props w) (obj_prop w) (host_fun w) (listeners w) (outcomes w)
          (settled w) (f (reactions w)) (jobs w) (calls w) (fired w).
Definition set_jobs (f : list Job -> list Job) (w : World) : World :=
  mkWorld (props w) (obj_prop w) (host_fun w) (listeners w) (outcomes w)
          (settled w) (reactions w) (f (jobs w)) (calls w) (fired w).
Definition set_calls (f : list HostCall -> list HostCall) (w : World) : World :=
  mkWorld (props w) (obj_prop w) (host_fun w) (listeners w) (outcomes w)
          (settled w) (reactions w) (jobs w) (f (calls w)) (fired w).
Definition set_fired (f : list Callback -> list Callback) (w : World) : World :=
  mkWorld (props w) (obj_prop w) (host_fun w) (listeners w) (outcomes w)
          (settled w) (reactions w) (jobs w) (calls w) (f (fired w)).

(** ** Computations: state and exceptions *)

Inductive Completion (A : Type) : Type :=
  | Normal (a : A) (w : World)
  | Abrupt (e : JsVal) (w : World).
Arguments Normal {A} a w.
Arguments Abrupt {A} e w.

Definition JS (A : Type) : Type := World -> Completion A.

Definition ret {A} (a : A) : JS A := fun w => Normal a w.
Definition throw {A} (e : JsVal) : JS A := fun w => Abrupt e w.
Definition bind {A B} (m : JS A) (k : A -> JS B) : JS B :=
  fun w => match m w with
           | Normal a w' => k a w'
           | Abrupt e w' => Abrupt e w'
           end.
Definition modify (f : World -> World) : JS unit := fun w => Normal tt (f w).

Notation "'let!' x := m 'in' k" := (bind m (fun x => k))
  (at level 10, x name, m at level 100, k at level 200).
Notation "m ;; k" := (bind m (fun _ => k))
  (at level 100, k at level 200, right associativity).

(** The world a computation leaves behind, however it completes. *)
Definition world_of {A} (c : Completion A) : World :=
  match c with Normal _ w | Abrupt _ w => w end.

(** ** Host primitives *)

(** [document[k]]: an absent property reads as [undefined]. *)
Definition doc_get (w : World) (k : string) : JsVal :=
  default VUndefined (props w !! k).

(** [o[k]] for any value [o]: reading a property of [undefined] or
    [null] throws; primitives, functions and promises have none of the
    properties the facade asks for. *)
Definition get_prop (o : JsVal) (k : string) : JS JsVal :=
  fun w => match o with
           | VUndefined | VNull => Abrupt (VError "TypeError") w
           | VDocument => Normal (doc_get w k) w
           | VObj r => Normal (obj_prop w r k) w
           | _ => Normal VUndefined w
           end.

(** [f.call(this, ...args)]: a host function is entered (and logged),
    anything else is not callable.  Host functions do not run script
    before they return; their events arrive as later tasks. *)
Definition call (f this : JsVal) (xs : list JsVal) : JS JsVal :=
  fun w => match f with
           | VFun r =>
               let w' := set_calls (fun l => l ++ [mkCall r this xs]) w in
               match host_fun w r this xs with
               | Returns v => Normal v w'
               | Throws e => Abrupt e w'
               end
           | _ => Abrupt (VError "TypeError") w
           end.

(** [o[k](...args)] *)
Definition call_method (o : JsVal) (k : string) (xs : list JsVal) : JS JsVal :=
  let! f := get_prop o k in call f o xs.

(** [document.addEventListener(type, callback, false)]: a listener that
    is already in the list is not added again. *)
Definition addEventListener (type : string) (cb : Callback) : JS unit :=
  modify (set_listeners (fun ls =>
    if decide ((type, cb) ∈ ls) then ls else ls ++ [(type, cb)])).

(** [document.removeEventListener(type, callback, false)] *)
Definition removeEventListener (type : string) (cb : Callback) : JS unit :=
  modify (set_listeners (filter (fun l => l ≠ (type, cb)))).

(** The [resolve] and [reject] functions of promise [p]: only a pending
    promise changes state. *)
Definition settle_outcome (p : nat) (s : PState) (w : World) : World :=
  match outcomes w !! p with
  | Some Pending => set_outcomes (fun os => <[p := s]> os) w
  | _ => w
  end.
Definition resolve (p : nat) : JS unit := modify (settle_outcome p Fulfilled).
Definition reject (p : nat) (e : JsVal) : JS unit := modify (settle_outcome p (Rejected e)).

(** [new Promise(executor)]: the executor runs at once; what it throws
    rejects the promise. *)
Definition new_Promise (executor : nat -> JS unit) : JS nat :=
  fun w =>
    let p := length (outcomes w) in
    match executor p (set_outcomes (fun os => os ++ [Pending]) w) with
    | Normal _ w' => Normal p w'
    | Abrupt e w' => Normal p (settle_outcome p (Rejected e) w')
    end.

(** [Promise.resolve()] *)
Definition Promise_resolve : JS nat :=
  fun w => Normal (length (outcomes w)) (set_outcomes (fun os => os ++ [Fulfilled]) w).

(** [promise.then(cb).catch(reject)] for a host promise [a]: queued as a
    job when [a] is already settled, parked on [a] otherwise. *)
Definition then_catch (a : nat) (cb : Callback) (p : nat) : JS unit :=
  fun w => match settled w !! a with
           | Some s => Normal tt (set_jobs (fun js => js ++ [JThen s cb p]) w)
           | None => Normal tt (set_reactions (fun rs => rs ++ [mkReaction a cb p]) w)
           end.

(** ** The capability table *)

Inductive EventName : Type := EvChange | EvError.

(** [const enum FnIx]: positions in a row of the table. *)
Module FnIx.
Inductive t : Type :=
  | requestFullscreen
  | exitFullscreen
  | fullscreenElement
  | fullscreenEnabled
  | fullscreenchange
  | fullscreenerror.

Definition ix (i : t) : nat :=
  match i with
  | requestFullscreen => 0
  | exitFullscreen => 1
  | fullscreenElement => 2
  | fullscreenEnabled => 3
  | fullscreenchange => 4
  | fullscreenerror => 5
  end.
End FnIx.

Definition standard_fn : list string :=
  [ "requestFullscreen";
    "exitFullscreen";
    "fullscreenElement";
    "fullscreenEnabled";
    "fullscreenchange";
    "fullscreenerror" ].

(* New WebKit *)
Definition webkit_fn : list string :=
  [ "webkitRequestFullscreen";
    "webkitExitFullscreen";
    "webkitFullscreenElement";
    "webkitFullscreenEnabled";
    "webkitfullscreenchange";
    "webkitfullscreenerror" ].

Definition fn_table : list (list string) := [ standard_fn; webkit_fn ].

(** [v[i]]; a missing entry would be [undefined], which as a property
    key is the string "undefined". *)
Definition row_at (v : list string) (i : nat) : string := nth i v "undefined".

(** [fn_table.find(v => document[v[1]])] *)
Definition select_fn (w : World) : option (list string) :=
  List.find (fun v => truthy (doc_get w (row_at v 1))) fn_table.

(** ** The instance for a supported host *)

Section Supported.

Variable fn : list string.

Definition fullscreenElement : string := row_at fn (FnIx.ix FnIx.fullscreenElement).
Definition fullscreenEnabled : string := row_at fn (FnIx.ix FnIx.fullscreenEnabled).
Definition requestFullscreen : string := row_at fn (FnIx.ix FnIx.requestFullscreen).
Definition exitFullscreen : string := row_at fn (FnIx.ix FnIx.exitFullscreen).

Definition eventNames (event : EventName) : string :=
  match event with
  | EvChange => row_at fn (FnIx.ix FnIx.fullscreenchange)
  | EvError => row_at fn (FnIx.ix FnIx.fullscreenerror)
  end.

(* the getters of [_fullscrn] *)
Definition element (w : World) : JsVal := doc_get w fullscreenElement.
Definition isFullscreen (w : World) : bool := truthy (doc_get w fullscreenElement).
Definition isEnabled (w : World) : bool := truthy (doc_get w fullscreenEnabled).

(** Remove a previously registered event listener. *)
Definition _off (event : EventName) (callback : Callback) : JS unit :=
  let eventName := eventNames event in
  if truthy (VStr eventName) then removeEventListener eventName callback else ret tt.

Definition onchange (callback : Callback) : JS (JS unit) :=
  addEventListener (eventNames EvChange) callback ;;
  ret (_off EvChange callback).

Definition onerror (callback : Callback) : JS (JS unit) :=
  addEventListener (eventNames EvError) callback ;;
  ret (_off EvError callback).

(** Body of the closures [onFullScreenEntered] and [onFullScreenExit];
    [self] is the closure itself, [p] the promise whose [resolve] it
    holds. *)
Definition onFullScreen_body (self : Callback) (p : nat) : JS unit :=
  _off EvChange self ;;
  resolve p.

Definition request (element options : JsVal) : JS nat :=
  new_Promise (fun p =>
    let onFullScreenEntered := OnFullScreenEntered fn p in
    onchange onFullScreenEntered ;;
    (* element ||= document.documentElement *)
    let! element := (if truthy element then ret element
                     else get_prop VDocument "documentElement") in
    let! promise := call_method element requestFullscreen [options] in
    match promise with
    | VPromise a => then_catch a onFullScreenEntered p
    | _ => ret tt
    end).

Definition exit : JS nat :=
  new_Promise (fun p => fun w =>
    if negb (isFullscreen w) then resolve p w
    else
      let onFullScreenExit := OnFullScreenExit fn p in
      (onchange onFullScreenExit ;;
       let! promise := call_method VDocument exitFullscreen [] in
       match promise with
       | VPromise a => then_catch a onFullScreenExit p
       | _ => ret tt
       end) w).

Definition toggle (element options : JsVal) : JS nat :=
  fun w => if isFullscreen w then exit w else request element options w.

End Supported.

(** ** The exported object *)

Module Fullscrn.
Record t : Type := mk {
  element : World -> JsVal;
  isFullscreen : World -> bool;
  isEnabled : World -> bool;
  request : JsVal -> JsVal -> JS nat;
  exit : JS nat;
  toggle : JsVal -> JsVal -> JS nat;
  onchange : Callback -> JS (JS unit);
  onerror : Callback -> JS (JS unit);
  _off : EventName -> Callback -> JS unit
}.
End Fullscrn.

Definition _noopP : JS nat := Promise_resolve.
Definition _noopV : JS unit := ret tt.
Definition _noopZ : JS (JS unit) := ret _noopV.

(** The module body, run once on the host as it is at load time.  When
    there is no [window], [document] is a fresh empty object: a world
    whose [props] are empty. *)
Definition fullscrn (w0 : World) : Fullscrn.t :=
  match select_fn w0 with
  | None =>
      (* There's no Fullscreen support, returns a noop instance *)
      {| Fullscrn.element := fun _ => VNull;
         Fullscrn.isEnabled := fun _ => false;
         Fullscrn.isFullscreen := fun _ => false;
         Fullscrn.request := fun _ _ => _noopP;
         Fullscrn.toggle := fun _ _ => _noopP;
         Fullscrn.exit := _noopP;
         Fullscrn.onchange := fun _ => _noopZ;
         Fullscrn.onerror := fun _ => _noopZ;
         Fullscrn._off := fun _ _ => _noopV |}
  | Some fn =>
      {| Fullscrn.element := element fn;
         Fullscrn.isFullscreen := isFullscreen fn;
         Fullscrn.isEnabled := isEnabled fn;
         Fullscrn.request := request fn;
         Fullscrn.exit := exit fn;
         Fullscrn.toggle := toggle fn;
         Fullscrn.onchange := onchange fn;
         Fullscrn.onerror := onerror fn;
         Fullscrn._off := _off fn |}
  end.

(** ** The host's event loop *)

(** Calling a listener or a reaction handler. *)
Definition invoke (cb : Callback) : JS unit :=
  match cb with
  | UserCb _ => ret tt
  | OnFullScreenEntered fn p => onFullScreen_body fn cb p
  | OnFullScreenExit fn p => onFullScreen_body fn cb p
  end.

(** One job.  The reaction of [then] calls [cb] when the host promise
    was fulfilled and passes a rejection on (the reason, or what [cb]
    threw) by queueing the reaction of [catch]; the reaction of [catch]
    calls [reject]. *)
Definition run_job (j : Job) (w : World) : World :=
  match j with
  | JThen SFulfilled cb p =>
      match invoke cb w with
      | Normal _ w' => w'
      | Abrupt e w' => set_jobs (fun js => js ++ [JCatch e p]) w'
      end
  | JThen (SRejected e) _ p => set_jobs (fun js => js ++ [JCatch e p]) w
  | JCatch e p => settle_outcome p (Rejected e) w
  end.

(** A job of [then] can queue one more job, a job of [catch] none. *)
Definition job_weight (j : Job) : nat :=
  match j with
  | JThen _ _ _ => 2
  | JCatch _ _ => 1
  end.

Fixpoint drain_loop (fuel : nat) (w : World) : World :=
  match fuel with
  | 0 => w
  | S fuel =>
      match jobs w with
      | [] => w
      | j :: rest => drain_loop fuel (run_job j (set_jobs (fun _ => rest) w))
      end
  end.

(** The microtask checkpoint: take the oldest job off the queue and run
    it, until the queue is empty. *)
Definition drain (w : World) : World :=
  drain_loop (sum_list_with job_weight (jobs w)) w.

(** Event dispatch walks a snapshot of the listener list and skips the
    listeners removed in the meantime; an exception of a listener is
    reported, not propagated.  The host calls each listener on an empty
    stack, so a microtask checkpoint follows every call. *)
Fixpoint dispatch_loop (snapshot : list Listener) (w : World) : World :=
  match snapshot with
  | [] => w
  | l :: rest =>
      dispatch_loop rest
        (if decide (l ∈ listeners w)
         then drain (world_of (invoke l.2 (set_fired (fun f => f ++ [l.2]) w)))
         else w)
  end.

Definition dispatch (type : string) (w : World) : World :=
  dispatch_loop (filter (fun l => l.1 = type) (listeners w)) w.

(** The host settles one of its promises; a promise settles once.  The
    reactions parked on it are queued; they run at the next checkpoint. *)
Definition settle (a : nat) (s : Settled) (w : World) : World :=
  match settled w !! a with
  | Some _ => w
  | None =>
      let woken := filter (fun r => r_on r = a) (reactions w) in
      set_jobs (fun js => js ++ ((fun r => JThen s (r_then r) (r_reject r)) <$> woken))
        (set_reactions (filter (fun r => r_on r ≠ a))
          (set_settled (fun m => <[a := s]> m) w))
  end.

(** What the host does between two runs of script.  A task of the host
    is any run of these steps; it ends with a checkpoint. *)
Inductive Task : Type :=
  | TDispatch (type : string)              (* an event fires on the document *)
  | TSettle (a : nat) (s : Settled)        (* a host promise is settled *)
  | TSetProp (k : string) (v : option JsVal)   (* a document property changes *)
  | TCheckpoint.                           (* the task ends: microtask checkpoint *)

Definition step (t : Task) (w : World) : World :=
  match t with
  | TDispatch type => dispatch type w
  | TSettle a s => settle a s w
  | TSetProp k (Some v) => set_props (fun m => <[k := v]> m) w
  | TSetProp k None => set_props (fun m => delete k m) w
  | TCheckpoint => drain w
  end.

Definition steps (ts : list Task) (w : World) : World :=
  fold_left (fun w t => step t w) ts w.

(** A task of the host that consists of the single step [t]: the step,
    then the checkpoint that ends the task.  Tasks of several steps are
    lists without [TCheckpoint], run by [run_tasks]. *)
Definition run_task (t : Task) (w : World) : World := drain (step t w).

(** The running script ends (microtask checkpoint), the host goes
    through [ts], and its last task ends.  Steps with no [TCheckpoint]
    between them belong to one task: nothing runs the queued reactions
    there, except the checkpoint after a listener. *)
Definition run_tasks (ts : list Task) (w : World) : World :=
  drain (steps ts (drain w)).

Definition outcome (p : nat) (w : World) : option PState := outcomes w !! p.

(** ** Sample hosts *)

(** A browser with the standard API: [requestFullscreen] of every
    element returns a promise, as does [document.exitFullscreen]. *)
Definition standard_props : gmap string JsVal :=
  <["exitFullscreen" := VFun 1]>
    (<["documentElement" := VObj 1]>
      (<["fullscreenElement" := VNull]>
        (<["fullscreenEnabled" := VBool true]> ∅))).

Definition standard_host : World :=
  mkWorld standard_props
    (fun _ k => if decide (k = "requestFullscreen") then VFun 0 else VUndefined)
    (fun r _ _ => Returns (VPromise r))
    [] [] ∅ [] [] [] [].

(** The same browser while element 7 is shown full-screen. *)
Definition fullscreen_host : World :=
  set_props (fun m => <["fullscreenElement" := VObj 7]> m) standard_host.

(** A browser that also answers to the WebKit names. *)
Definition both_host : World :=
  set_props (fun m => <["webkitExitFullscreen" := VFun 3]> m) standard_host.

(** Safari: only the WebKit names. *)
Definition webkit_host : World :=
  mkWorld (<["webkitExitFullscreen" := VFun 1]>
            (<["documentElement" := VObj 1]>
              (<["webkitFullscreenElement" := VNull]> ∅)))
    (fun _ k => if decide (k = "webkitRequestFullscreen") then VFun 0 else VUndefined)
    (fun _ _ _ => Returns VUndefined)
    [] [] ∅ [] [] [] [].


(** No [window]: the stand-in empty object. *)
Definition empty_host : World :=
  mkWorld ∅ (fun _ _ => VUndefined) (fun _ _ _ => Returns VUndefined)
    [] [] ∅ [] [] [] [].

(** A browser whose [requestFullscreen] throws when called. *)
Definition throwing_host : World :=
  mkWorld standard_props
    (fun _ k => if decide (k = "requestFullscreen") then VFun 0 else VUndefined)
    (fun r _ _ => if decide (r = 0) then Throws (VStr "denied") else Returns VUndefined)
    [] [] ∅ [] [] [] [].

(** A browser in full-screen whose [exitFullscreen] throws. *)
Definition stuck_host : World :=
  mkWorld (<["fullscreenElement" := VObj 7]> standard_props)
    (fun _ k => if decide (k = "requestFullscreen") then VFun 0 else VUndefined)
    (fun r _ _ => if decide (r = 1) then Throws (VStr "busy") else Returns VUndefined)
    [] [] ∅ [] [] [] [].

(** A browser where the application has already subscribed function 5
    to the error event and function 6 to the change event. *)
Definition subscribed_host : World :=
  set_listeners (fun _ => [("fullscreenerror", UserCb 5); ("fullscreenchange", UserCb 6)])
    standard_host.

(** A page whose root element has no request operation. *)
Definition rootless_host : World :=
  mkWorld standard_props (fun _ _ => VUndefined) (fun _ _ _ => Returns VUndefined)
    [] [] ∅ [] [] [] [].

(** ** Vocabulary of the statements *)

(** The operation left the host as it was: at most the facade's own
    promise store differs. *)
Definition host_untouched (w w' : World) : Prop :=
  props w' = props w ∧ listeners w' = listeners w ∧ settled w' = settled w ∧
  reactions w' = reactions w ∧ jobs w' = jobs w ∧ calls w' = calls w ∧
  fired w' = fired w.

(** The operation returns an already fulfilled promise and does nothing
    else. *)
Definition resolves_at_once (m : JS nat) (w : World) : Prop :=
  ∃ p w', m w = Normal p w' ∧ outcome p w' = Some Fulfilled ∧ host_untouched w w'.

(** What [o[k]] evaluates to in [w] ([undefined] when the read throws). *)
Definition method_of (w : World) (o : JsVal) (k : string) : JsVal :=
  match get_prop o k w with
  | Normal v _ => v
  | Abrupt _ _ => VUndefined
  end.

(** The callbacks an event dispatch added to the log. *)
Definition newly_fired (w w' : World) : list Callback :=
  drop (length (fired w)) (fired w').

(** The world after a callback ran. *)
Definition invoked (cb : Callback) (w : World) : World := world_of (invoke cb w).

(** Promises that are settled in [w] are in the same state in [w']. *)
Definition keeps_final (w w' : World) : Prop :=
  ∀ p s, outcomes w !! p = Some s → s ≠ Pending → outcomes w' !! p = Some s.

(** The value [request] calls the request operation on. *)
Definition request_target (w : World) (element : JsVal) : JsVal :=
  if truthy element then element else doc_get w "documentElement".

(** The world [request fn element options] leaves behind, spelled out
    along the paths of its executor. *)
Definition request_world (fn : list string) (element options : JsVal) (w : World) : World :=
  let p := length (outcomes w) in
  let cb := OnFullScreenEntered fn p in
  let target := request_target w element in
  let w1 := world_of (onchange fn cb (set_outcomes (fun os => os ++ [Pending]) w)) in
  match method_of w target (requestFullscreen fn) with
  | VFun r =>
      let w2 := set_calls (fun l => l ++ [mkCall r target [options]]) w1 in
      match host_fun w r target [options] with
      | Returns (VPromise a) => world_of (then_catch a cb p w2)
      | Returns _ => w2
      | Throws e => settle_outcome p (Rejected e) w2
      end
  | _ => settle_outcome p (Rejected (VError "TypeError")) w1
  end.

(** The host promise a returned value lets [request] track. *)
Definition awaitable_of (v : JsVal) : option nat :=
  match v with
  | VPromise a => Some a
  | _ => None
  end.

Definition job_bounded (n : nat) (j : Job) : Prop :=
  match j with
  | JThen _ cb p => p < n ∧ ∀ q, closure_of cb = Some q → q < n
  | JCatch _ p => p < n
  end.

(** Every closure and every [reject] the host still holds belongs to one
    of the first [n] promises. *)
Definition bounded (n : nat) (w : World) : Prop :=
  (∀ l q, l ∈ listeners w → closure_of l.2 = Some q → q < n) ∧
  (∀ r, r ∈ reactions w →
        r_reject r < n ∧ ∀ q, closure_of (r_then r) = Some q → q < n) ∧
  (∀ j, j ∈ jobs w → job_bounded n j).

(** What the host holds refers to promises that exist.  A world without
    listeners, reactions and jobs is like that, and the facade and the
    event loop keep it so. *)
Definition well_formed (w : World) : Prop := bounded (length (outcomes w)) w.

(** The world [exit fn] leaves behind, spelled out along the paths of
    its executor. *)
Definition exit_world (fn : list string) (w : World) : World :=
  let p := length (outcomes w) in
  let cb := OnFullScreenExit fn p in
  let w0 := set_outcomes (fun os => os ++ [Pending]) w in
  if negb (isFullscreen fn w) then settle_outcome p Fulfilled w0
  else
    let w1 := world_of (onchange fn cb w0) in
    match doc_get w (exitFullscreen fn) with
    | VFun r =>
        let w2 := set_calls (fun l => l ++ [mkCall r VDocument []]) w1 in
        match host_fun w r VDocument [] with
        | Returns (VPromise a) => world_of (then_catch a cb p w2)
        | Returns _ => w2
        | Throws e => settle_outcome p (Rejected e) w2
        end
    | _ => settle_outcome p (Rejected (VError "TypeError")) w1
    end.

(** Promise [p] is pending and waits, through its closure [cb], for the
    event [ev] and for the host promise [tracked], if any; nothing else
    in the host refers to [p]. *)
Record waiting (ev : string) (cb : Callback) (p : nat) (tracked : option nat)
    (w : World) : Prop := mkWaiting {
  wt_pending : outcomes w !! p = Some Pending;
  wt_listener : (ev, cb) ∈ listeners w;
  wt_tracked : ∀ a, tracked = Some a →
                 settled w !! a = None ∧ mkReaction a cb p ∈ reactions w;
  wt_listeners : ∀ l, l ∈ listeners w → closure_of l.2 = Some p → l.1 = ev;
  wt_reactions : ∀ r, r ∈ reactions w →
                   closure_of (r_then r) = Some p ∨ r_reject r = p →
                   tracked = Some (r_on r)
}.

(** A job that neither resolves nor rejects [p]. *)
Definition foreign_job (p : nat) (j : Job) : Prop :=
  match j with
  | JThen SFulfilled cb q => closure_of cb ≠ Some p ∧ q ≠ p
  | JThen (SRejected _) _ q => q ≠ p
  | JCatch _ q => q ≠ p
  end.

(** What a step of the host means for a promise that waits for event
    [ev] and host promise [tracked]: the state it heads for, or nothing. *)
Definition decides (ev : string) (tracked : option nat) (t : Task) : option PState :=
  match t with
  | TDispatch type => if decide (type = ev) then Some Fulfilled else None
  | TSettle a s =>
      if decide (tracked = Some a)
      then Some match s with SFulfilled => Fulfilled | SRejected e => Rejected e end
      else None
  | TSetProp _ _ => None
  | TCheckpoint => None
  end.

(** A step that is neither the awaited event nor the settlement of the
    tracked promise. *)
Definition quiet (ev : string) (tracked : option nat) (t : Task) : Prop :=
  decides ev tracked t = None.

(** The state a settled host promise leads to. *)
Definition final_of (s : Settled) : PState :=
  match s with
  | SFulfilled => Fulfilled
  | SRejected e => Rejected e
  end.

(** How [element[requestFullscreen](options)] completes in [w]: what the
    operation returns or throws, a TypeError when there is none. *)
Definition request_call (fn : list string) (element options : JsVal) (w : World) : CallResult :=
  match method_of w (request_target w element) (requestFullscreen fn) with
  | VFun r => host_fun w r (request_target w element) [options]
  | _ => Throws (VError "TypeError")
  end.

(** How [document[exitFullscreen]()] completes in [w]. *)
Definition exit_call (fn : list string) (w : World) : CallResult :=
  match doc_get w (exitFullscreen fn) with
  | VFun r => host_fun w r VDocument []
  | _ => Throws (VError "TypeError")
  end.

(** A job that can still reject [p] with [e]. *)
Definition rejecting (p : nat) (e : JsVal) (j : Job) : Prop :=
  match j with
  | JThen (SRejected e') _ q => q = p ∧ e' = e
  | JThen SFulfilled _ _ => False
  | JCatch e' q => q = p ∧ e' = e
  end.

(** A job that cannot reject [p]. *)
Definition harmless (p : nat) (j : Job) : Prop :=
  match j with
  | JThen SFulfilled _ _ => True
  | JThen (SRejected _) _ q => q ≠ p
  | JCatch _ q => q ≠ p
  end.

(** [p] can no longer be rejected, and is fulfilled or has the job that
    will fulfil it in the queue. *)
Definition fulfilling (p : nat) (w : World) : Prop :=
  Forall (harmless p) (jobs w) ∧
  (∀ r, r ∈ reactions w → r_reject r ≠ p) ∧
  (outcomes w !! p = Some Fulfilled ∨
   (outcomes w !! p = Some Pending ∧
    ∃ c q, JThen SFulfilled c q ∈ jobs w ∧ closure_of c = Some p)).

(** [p] is rejected with [e], or is pending with a job in the queue that
    will reject it with [e] while nothing but the event [ev] can fulfil
    it first. *)
Definition rejecting_state (ev : string) (p : nat) (e : JsVal) (w : World) : Prop :=
  Forall (λ j, foreign_job p j ∨ rejecting p e j) (jobs w) ∧
  (∀ r, r ∈ reactions w → closure_of (r_then r) ≠ Some p ∧ r_reject r ≠ p) ∧
  (∀ l, l ∈ listeners w → closure_of l.2 = Some p → l.1 = ev) ∧
  (outcomes w !! p = Some (Rejected e) ∨
   (outcomes w !! p = Some Pending ∧ Exists (rejecting p e) (jobs w))).

(** * Properties *)

(** ** Selection *)

Lemma select_fn_first (w : World) :
  truthy (doc_get w "exitFullscreen") = true → select_fn w = Some standard_fn.
Proof. intros H. unfold select_fn. cbn. by rewrite H. Qed.

Lemma select_fn_none (w : World) :
  truthy (doc_get w "exitFullscreen") = false →
  truthy (doc_get w "webkitExitFullscreen") = false →
  select_fn w = None.
Proof. intros H1 H2. unfold select_fn. cbn. by rewrite H1, H2. Qed.

Lemma select_fn_in_table (w : World) (fn : list string) :
  select_fn w = Some fn → fn = standard_fn ∨ fn = webkit_fn.
Proof.
  unfold select_fn, fn_table. intros H.
  apply find_some in H as [H _]. cbn in H.
  destruct H as [<-|[<-|[]]]; auto.
Qed.

Lemma fullscrn_supported (w0 : World) (fn : list string) :
  select_fn w0 = Some fn →
  fullscrn w0 = Fullscrn.mk (element fn) (isFullscreen fn) (isEnabled fn)
                  (request fn) (exit fn) (toggle fn)
                  (onchange fn) (onerror fn) (_off fn).
Proof. intros H. unfold fullscrn. by rewrite H. Qed.

Lemma select_fn_second (w : World) :
  truthy (doc_get w "exitFullscreen") = false →
  truthy (doc_get w "webkitExitFullscreen") = true →
  select_fn w = Some webkit_fn.
Proof. intros H1 H2. unfold select_fn. cbn. by rewrite H1, H2. Qed.

Example select_fn_webkit_host : select_fn webkit_host = Some webkit_fn.
Proof. reflexivity. Qed.

Example select_fn_empty_host : select_fn empty_host = None.
Proof. reflexivity. Qed.

(** On Safari the promise of [request] is settled by the event alone:
    [webkitRequestFullscreen] returns nothing to track. *)
Example request_on_webkit_host :
  ∃ p w1, request webkit_fn VUndefined VUndefined webkit_host = Normal p w1 ∧
          calls w1 = [mkCall 0 (VObj 1) [VUndefined]] ∧
          reactions w1 = [] ∧
          outcome p w1 = Some Pending ∧
          outcome p (run_tasks [TDispatch "webkitfullscreenchange"] w1) = Some Fulfilled ∧
          listeners (run_tasks [TDispatch "webkitfullscreenchange"] w1) = [].
Proof. eexists _, _. split; [reflexivity|]. by vm_compute. Qed.

(** C8. A host that exposes both the standard and the WebKit-prefixed
    exit operation gets the standard row of the table. *)
Theorem select_fn_prefers_standard (w : World) (f1 f2 : nat) :
  props w !! "exitFullscreen" = Some (VFun f1) →
  props w !! "webkitExitFullscreen" = Some (VFun f2) →
  select_fn w = Some standard_fn.
Proof.
  intros H1 _. apply select_fn_first. unfold doc_get. by rewrite H1.
Qed.

Lemma select_fn_prefers_standard_witness :
  select_fn both_host = Some standard_fn.
Proof. apply (select_fn_prefers_standard both_host 1 3); reflexivity. Defined.

(** ** State accessors *)


(** What the getter does on every host: it hands back the host's
    element property as it is, [undefined] when there is none. *)
Lemma element_reads_host_property (w0 w : World) (fn : list string) :
  select_fn w0 = Some fn →
  Fullscrn.element (fullscrn w0) w =
    match props w !! fullscreenElement fn with
    | Some v => v
    | None => VUndefined
    end.
Proof.
  intros Hsel. rewrite (fullscrn_supported _ _ Hsel). cbn.
  unfold element, doc_get. by destruct (props w !! fullscreenElement fn).
Qed.

(** ** The inert instance *)

Lemma Promise_resolve_at_once (w : World) : resolves_at_once Promise_resolve w.
Proof.
  exists (length (outcomes w)), (set_outcomes (fun os => os ++ [Fulfilled]) w).
  split; [reflexivity|]. split; [|by repeat split].
  unfold outcome. cbn. by rewrite lookup_app_r, Nat.sub_diag.
Qed.

(** C3. On a host with neither exit operation the facade is inert:
    the three accessors are constant, [request], [exit] and [toggle]
    return a fulfilled promise and leave the host alone, and [onchange]
    and [onerror] register nothing (the world is unchanged, so no event
    can reach the callback) and return a function that does nothing. *)
Theorem unsupported_is_inert (w0 : World) :
  props w0 !! "exitFullscreen" = None →
  props w0 !! "webkitExitFullscreen" = None →
  let f := fullscrn w0 in
  (∀ w, Fullscrn.isEnabled f w = false ∧ Fullscrn.isFullscreen f w = false ∧
        Fullscrn.element f w = VNull) ∧
  (∀ el opts w, resolves_at_once (Fullscrn.request f el opts) w) ∧
  (∀ w, resolves_at_once (Fullscrn.exit f) w) ∧
  (∀ el opts w, resolves_at_once (Fullscrn.toggle f el opts) w) ∧
  (∀ cb w, ∃ unsubscribe,
      Fullscrn.onchange f cb w = Normal unsubscribe w ∧
      ∀ w', unsubscribe w' = Normal tt w') ∧
  (∀ cb w, ∃ unsubscribe,
      Fullscrn.onerror f cb w = Normal unsubscribe w ∧
      ∀ w', unsubscribe w' = Normal tt w').
Proof.
  intros H1 H2 f.
  assert (Hsel : select_fn w0 = None).
  { apply select_fn_none; unfold doc_get; [by rewrite H1 | by rewrite H2]. }
  subst f. unfold fullscrn. rewrite Hsel. cbn.
  repeat split; intros; try apply Promise_resolve_at_once;
    by exists _noopV.
Qed.

Lemma unsupported_is_inert_witness :
  resolves_at_once (Fullscrn.request (fullscrn empty_host) (VObj 4) VUndefined) standard_host.
Proof.
  pose proof (unsupported_is_inert empty_host eq_refl eq_refl) as H.
  cbv zeta in H. destruct H as (_ & Hreq & _).
  exact (Hreq (VObj 4) VUndefined standard_host).
Defined.

(** ** exit and toggle *)

(** C4. While the host is not full-screen, [exit] returns a promise
    that is already fulfilled; the exit operation is not called and no
    listener is registered. *)
Theorem exit_when_not_fullscreen (w0 w : World) (fn : list string) :
  select_fn w0 = Some fn →
  Fullscrn.isFullscreen (fullscrn w0) w = false →
  ∃ p w', Fullscrn.exit (fullscrn w0) w = Normal p w' ∧
          outcome p w' = Some Fulfilled ∧
          calls w' = calls w ∧
          listeners w' = listeners w ∧
          host_untouched w w'.
Proof.
  intros Hsel. rewrite (fullscrn_supported _ _ Hsel). cbn. intros Hfs.
  exists (length (outcomes w)).
  eexists. unfold exit, new_Promise.
  replace (isFullscreen fn (set_outcomes (λ os, os ++ [Pending]) w))
    with (isFullscreen fn w) by reflexivity.
  rewrite Hfs. cbn. split; [reflexivity|].
  unfold settle_outcome, outcome. cbn.
  rewrite lookup_app_r, Nat.sub_diag by lia. cbn.
  rewrite list_lookup_insert_eq by (rewrite length_app; cbn; lia).
  by repeat split.
Qed.

Lemma exit_when_not_fullscreen_witness :
  ∃ p w', Fullscrn.exit (fullscrn standard_host) standard_host = Normal p w' ∧
          outcome p w' = Some Fulfilled ∧
          calls w' = calls standard_host ∧
          listeners w' = listeners standard_host ∧
          host_untouched standard_host w'.
Proof.
  exact (exit_when_not_fullscreen standard_host standard_host standard_fn eq_refl eq_refl).
Defined.

(** C5. [toggle] is [exit] while the host is full-screen (its arguments
    are ignored) and [request] with the same arguments otherwise. *)
Theorem toggle_symmetry (w0 w : World) (fn : list string) (el opts : JsVal) :
  select_fn w0 = Some fn →
  let f := fullscrn w0 in
  (Fullscrn.isFullscreen f w = true →
     Fullscrn.toggle f el opts w = Fullscrn.exit f w) ∧
  (Fullscrn.isFullscreen f w = false →
     Fullscrn.toggle f el opts w = Fullscrn.request f el opts w).
Proof.
  intros Hsel f. subst f. rewrite (fullscrn_supported _ _ Hsel). cbn.
  unfold toggle. split; intros ->; reflexivity.
Qed.

Lemma toggle_symmetry_witness :
  Fullscrn.toggle (fullscrn standard_host) (VObj 4) VNull fullscreen_host =
    Fullscrn.exit (fullscrn standard_host) fullscreen_host ∧
  Fullscrn.toggle (fullscrn standard_host) (VObj 4) VNull standard_host =
    Fullscrn.request (fullscrn standard_host) (VObj 4) VNull standard_host.
Proof.
  split.
  - apply (toggle_symmetry standard_host fullscreen_host standard_fn (VObj 4) VNull eq_refl).
    reflexivity.
  - apply (toggle_symmetry standard_host standard_host standard_fn (VObj 4) VNull eq_refl).
    reflexivity.
Defined.

(** ** Frame lemmas for the primitives *)

Lemma settle_outcome_fields (p : nat) (s : PState) (w : World) :
  props (settle_outcome p s w) = props w ∧
  listeners (settle_outcome p s w) = listeners w ∧
  settled (settle_outcome p s w) = settled w ∧
  reactions (settle_outcome p s w) = reactions w ∧
  jobs (settle_outcome p s w) = jobs w ∧
  calls (settle_outcome p s w) = calls w ∧
  fired (settle_outcome p s w) = fired w.
Proof.
  unfold settle_outcome. destruct (outcomes w !! p) as [[]|]; by repeat split.
Qed.

Lemma calls_settle_outcome (p : nat) (s : PState) (w : World) :
  calls (settle_outcome p s w) = calls w.
Proof. apply settle_outcome_fields. Qed.

Lemma listeners_settle_outcome (p : nat) (s : PState) (w : World) :
  listeners (settle_outcome p s w) = listeners w.
Proof. apply settle_outcome_fields. Qed.

Lemma then_catch_normal (a : nat) (cb : Callback) (p : nat) (w : World) :
  ∃ w', then_catch a cb p w = Normal tt w' ∧
        calls w' = calls w ∧ listeners w' = listeners w ∧
        outcomes w' = outcomes w ∧ props w' = props w.
Proof.
  unfold then_catch. destruct (settled w !! a); eexists; by repeat split.
Qed.

(** ** request *)

Lemma request_eq (fn : list string) (element options : JsVal) (w : World) :
  request fn element options w =
    Normal (length (outcomes w)) (request_world fn element options w).
Proof.
  unfold request, request_world, request_target, new_Promise, call_method, bind.
  cbn. set (w1 := set_listeners _ _). unfold method_of.
  change (doc_get w1 "documentElement") with (doc_get w "documentElement").
  set (target := if truthy element then element else doc_get w "documentElement").
  assert (Hget : (if truthy element then ret element
                  else get_prop VDocument "documentElement") w1 = Normal target w1).
  { subst target. by destruct (truthy element). }
  rewrite Hget. clear Hget.
  assert (Hget : get_prop target (requestFullscreen fn) w1 =
                 match get_prop target (requestFullscreen fn) w with
                 | Normal v _ => Normal v w1
                 | Abrupt e _ => Abrupt e w1
                 end).
  { unfold get_prop. by destruct target. }
  rewrite Hget. clear Hget.
  destruct (get_prop target (requestFullscreen fn) w) as [f wa|e wa] eqn:Hg.
  2:{ unfold get_prop in Hg. destruct target; try discriminate; by simplify_eq. }
  unfold call. destruct f; try reflexivity.
  change (host_fun w1 r) with (host_fun w r).
  destruct (host_fun w r target [options]) as [v|e]; [|reflexivity].
  destruct v; try reflexivity.
  unfold then_catch. cbn. by destruct (settled w !! a).
Qed.

(** C6. Called without an element, [request] calls exactly one host
    function, if any: the request operation found on the document's
    root element, with that element as receiver. *)
Theorem request_default_target (w0 w : World) (fn : list string) (options : JsVal) :
  select_fn w0 = Some fn →
  let root := doc_get w "documentElement" in
  ∃ p w', Fullscrn.request (fullscrn w0) VUndefined options w = Normal p w' ∧
          calls w' = calls w ++
            match method_of w root (requestFullscreen fn) with
            | VFun r => [mkCall r root [options]]
            | _ => []
            end.
Proof.
  intros Hsel root. rewrite (fullscrn_supported _ _ Hsel). cbn.
  rewrite request_eq. eexists _, _. split; [reflexivity|].
  unfold request_world, request_target. cbn. fold root.
  destruct (method_of w root (requestFullscreen fn));
    try (rewrite calls_settle_outcome; cbn; by rewrite app_nil_r).
  destruct (host_fun w r root [options]) as [v|e].
  - destruct v; try reflexivity.
    unfold then_catch. cbn. by destruct (settled w !! a).
  - by rewrite calls_settle_outcome.
Qed.

Lemma request_default_target_witness :
  ∃ p w', Fullscrn.request (fullscrn standard_host) VUndefined VNull standard_host
            = Normal p w' ∧
          calls w' = [mkCall 0 (VObj 1) [VNull]].
Proof.
  exact (request_default_target standard_host standard_host standard_fn VNull eq_refl).
Defined.

(** ** How the event loop treats the promise store *)

Lemma outcomes_settle_outcome_ne (p q : nat) (s : PState) (w : World) :
  p ≠ q → outcomes (settle_outcome q s w) !! p = outcomes w !! p.
Proof.
  intros Hne. unfold settle_outcome.
  destruct (outcomes w !! q) as [[]|]; cbn; try done.
  by rewrite list_lookup_insert_ne.
Qed.

Lemma outcomes_settle_outcome_pending (p : nat) (s : PState) (w : World) :
  outcomes w !! p = Some Pending → outcomes (settle_outcome p s w) !! p = Some s.
Proof.
  intros Hp. unfold settle_outcome. rewrite Hp. cbn.
  apply list_lookup_insert_eq. by eapply lookup_lt_Some.
Qed.

(** A settled promise keeps its state whatever is resolved or rejected. *)
Lemma outcomes_settle_outcome_final (p q : nat) (s0 s : PState) (w : World) :
  outcomes w !! p = Some s0 → s0 ≠ Pending →
  outcomes (settle_outcome q s w) !! p = Some s0.
Proof.
  intros Hp Hs0. destruct (decide (p = q)) as [->|Hne].
  - unfold settle_outcome. rewrite Hp. by destruct s0.
  - by rewrite outcomes_settle_outcome_ne.
Qed.

Lemma invoke_normal (cb : Callback) (w : World) :
  invoke cb w = Normal tt (invoked cb w).
Proof.
  unfold invoked. destruct cb as [n|fn p|fn p]; cbn; try done;
    unfold onFullScreen_body, _off, bind;
    destruct (truthy (VStr (eventNames fn EvChange))); reflexivity.
Qed.

Lemma invoked_outcomes (cb : Callback) (w : World) :
  outcomes (invoked cb w) =
    match closure_of cb with
    | Some q => outcomes (settle_outcome q Fulfilled w)
    | None => outcomes w
    end.
Proof.
  unfold invoked. destruct cb as [n|fn p|fn p]; cbn; try done;
    unfold onFullScreen_body, _off, bind;
    destruct (truthy (VStr (eventNames fn EvChange))); cbn; try done;
    unfold settle_outcome; cbn; by destruct (outcomes w !! p) as [[]|].
Qed.

Lemma invoked_fields (cb : Callback) (w : World) :
  props (invoked cb w) = props w ∧ settled (invoked cb w) = settled w ∧
  reactions (invoked cb w) = reactions w ∧ jobs (invoked cb w) = jobs w ∧
  calls (invoked cb w) = calls w ∧ fired (invoked cb w) = fired w.
Proof.
  unfold invoked. destruct cb as [n|fn p|fn p]; cbn; try done;
    unfold onFullScreen_body, _off, bind;
    destruct (truthy (VStr (eventNames fn EvChange))); cbn;
    match goal with |- context [settle_outcome ?p ?s ?w] =>
      destruct (settle_outcome_fields p s w) as (-> & _ & -> & -> & -> & -> & ->)
    end; done.
Qed.

(** A callback removes at most itself from the listener list. *)
Lemma invoked_listeners (cb : Callback) (w : World) :
  (∀ l, l ∈ listeners (invoked cb w) → l ∈ listeners w) ∧
  (∀ l, l ∈ listeners w → l.2 ≠ cb → l ∈ listeners (invoked cb w)).
Proof.
  unfold invoked. destruct cb as [n|fn p|fn p]; cbn; try done;
    unfold onFullScreen_body, _off, bind;
    destruct (truthy (VStr (eventNames fn EvChange))); cbn;
    rewrite listeners_settle_outcome; cbn; try done;
    (split; intros l;
      [ rewrite list_elem_of_filter; tauto
      | intros Hl Hne; apply list_elem_of_filter; split; [|done];
        intros ->; by apply Hne ]).
Qed.

Lemma run_job_eq (j : Job) (w : World) :
  run_job j w =
    match j with
    | JThen SFulfilled cb _ => invoked cb w
    | JThen (SRejected e) _ p => set_jobs (λ js, js ++ [JCatch e p]) w
    | JCatch e p => settle_outcome p (Rejected e) w
    end.
Proof. destruct j as [[|e] cb p|e p]; cbn; try done. by rewrite invoke_normal. Qed.

(** A job adds at most one job to the queue: the reaction of [catch]
    behind a rejected reaction of [then]. *)
Lemma jobs_run_job (j : Job) (w : World) :
  jobs (run_job j w) =
    jobs w ++ match j with
              | JThen (SRejected e) _ p => [JCatch e p]
              | _ => []
              end.
Proof.
  rewrite run_job_eq. destruct j as [[|e] cb p|e p]; cbn.
  - destruct (invoked_fields cb w) as (_ & _ & _ & -> & _). by rewrite app_nil_r.
  - done.
  - destruct (settle_outcome_fields p (Rejected e) w) as (_ & _ & _ & _ & -> & _).
    by rewrite app_nil_r.
Qed.

Lemma run_job_fields (j : Job) (w : World) :
  props (run_job j w) = props w ∧ settled (run_job j w) = settled w ∧
  reactions (run_job j w) = reactions w ∧ calls (run_job j w) = calls w ∧
  fired (run_job j w) = fired w.
Proof.
  rewrite run_job_eq. destruct j as [[|e] cb p|e p]; cbn; try done.
  - destruct (invoked_fields cb w) as (-> & -> & -> & _ & -> & ->). done.
  - destruct (settle_outcome_fields p (Rejected e) w)
      as (-> & _ & -> & -> & _ & -> & ->). done.
Qed.

(** *** The checkpoint *)

(** What holds of the world and is kept by taking a job off the queue
    and running it, holds after the checkpoint. *)
Lemma drain_loop_ind (P : World → Prop) :
  (∀ w j rest, jobs w = j :: rest → P w → P (run_job j (set_jobs (λ _, rest) w))) →
  ∀ fuel w, P w → P (drain_loop fuel w).
Proof.
  intros Hstep fuel. induction fuel as [|fuel IH]; intros w Hw; cbn; [done|].
  destruct (jobs w) as [|j rest] eqn:Hj; [done|]. by apply IH, Hstep.
Qed.

Lemma drain_ind (P : World → Prop) (w : World) :
  (∀ w j rest, jobs w = j :: rest → P w → P (run_job j (set_jobs (λ _, rest) w))) →
  P w → P (drain w).
Proof. intros Hstep. by apply drain_loop_ind. Qed.

(** The checkpoint has fuel enough to empty the queue. *)
Lemma jobs_drain_loop (fuel : nat) (w : World) :
  (sum_list_with job_weight (jobs w) ≤ fuel)%nat → jobs (drain_loop fuel w) = [].
Proof.
  revert w. induction fuel as [|fuel IH]; intros w Hle; cbn.
  - destruct (jobs w) as [|j rest]; [done|]. cbn in Hle. destruct j; cbn in Hle; lia.
  - destruct (jobs w) as [|j rest] eqn:Hj; [done|]. apply IH.
    rewrite jobs_run_job. cbn. rewrite sum_list_with_app. cbn in Hle.
    destruct j as [[|e] cb p|e p]; cbn in *; lia.
Qed.

Lemma jobs_drain (w : World) : jobs (drain w) = [].
Proof. by apply jobs_drain_loop. Qed.

Lemma drain_no_jobs (w : World) : jobs w = [] → drain w = w.
Proof. unfold drain. intros ->. reflexivity. Qed.

(** *** Settled promises stay as they are *)

Lemma keeps_final_refl (w : World) : keeps_final w w.
Proof. by intros p s. Qed.

Lemma keeps_final_trans (w1 w2 w3 : World) :
  keeps_final w1 w2 → keeps_final w2 w3 → keeps_final w1 w3.
Proof. intros H12 H23 p s Hp Hs. eauto. Qed.

Lemma keeps_final_settle_outcome (q : nat) (s : PState) (w : World) :
  keeps_final w (settle_outcome q s w).
Proof. intros p s0. apply outcomes_settle_outcome_final. Qed.

Lemma keeps_final_invoked (cb : Callback) (w : World) : keeps_final w (invoked cb w).
Proof.
  intros p s Hp Hs. rewrite invoked_outcomes. destruct (closure_of cb); [|done].
  by apply outcomes_settle_outcome_final.
Qed.

Lemma keeps_final_run_job (j : Job) (w : World) : keeps_final w (run_job j w).
Proof.
  rewrite run_job_eq. destruct j as [[|e] cb p|e p].
  - apply keeps_final_invoked.
  - by intros q s.
  - apply keeps_final_settle_outcome.
Qed.

Lemma keeps_final_drain (w : World) : keeps_final w (drain w).
Proof.
  apply (drain_ind (keeps_final w)); [|apply keeps_final_refl].
  intros w' j rest _ Hw'. eapply keeps_final_trans; [exact Hw'|].
  eapply keeps_final_trans; [|apply keeps_final_run_job]. by intros p s.
Qed.

Lemma keeps_final_dispatch_loop (snapshot : list Listener) (w : World) :
  keeps_final w (dispatch_loop snapshot w).
Proof.
  revert w. induction snapshot as [|l rest IH]; intros w; cbn.
  - apply keeps_final_refl.
  - eapply keeps_final_trans; [|apply IH].
    destruct (decide (l ∈ listeners w)); [|apply keeps_final_refl].
    eapply keeps_final_trans; [|apply keeps_final_drain].
    eapply keeps_final_trans; [|apply keeps_final_invoked]. by intros p s.
Qed.

Lemma keeps_final_step (t : Task) (w : World) : keeps_final w (step t w).
Proof.
  destruct t as [type|a s|k [v|]|]; cbn; try by intros p s.
  - apply keeps_final_dispatch_loop.
  - unfold settle. destruct (settled w !! a); by intros p s'.
  - apply keeps_final_drain.
Qed.

Lemma keeps_final_run_task (t : Task) (w : World) : keeps_final w (run_task t w).
Proof.
  unfold run_task.
  eapply keeps_final_trans; [apply keeps_final_step|apply keeps_final_drain].
Qed.

Lemma keeps_final_steps (ts : list Task) (w : World) : keeps_final w (steps ts w).
Proof.
  unfold steps. revert w. induction ts as [|t ts IH]; intros w; cbn.
  - apply keeps_final_refl.
  - eapply keeps_final_trans; [apply keeps_final_step | apply IH].
Qed.

Lemma keeps_final_run_tasks (ts : list Task) (w : World) :
  keeps_final w (run_tasks ts w).
Proof.
  unfold run_tasks.
  eapply keeps_final_trans; [apply keeps_final_drain|].
  eapply keeps_final_trans; [apply keeps_final_steps|apply keeps_final_drain].
Qed.

Lemma steps_app (ts ts' : list Task) (w : World) :
  steps (ts ++ ts') w = steps ts' (steps ts w).
Proof. unfold steps. by rewrite fold_left_app. Qed.

Lemma steps_cons (t : Task) (ts : list Task) (w : World) :
  steps (t :: ts) w = steps ts (step t w).
Proof. reflexivity. Qed.

(** C10. When the request operation of the target throws, [request]
    itself completes normally: the value thrown inside the executor
    becomes the rejection reason of the promise it returns, and stays
    so whatever the host does next. *)
Theorem request_sync_throw (w0 w : World) (fn : list string)
    (element options : JsVal) (r : nat) (e : JsVal) :
  select_fn w0 = Some fn →
  method_of w (request_target w element) (requestFullscreen fn) = VFun r →
  host_fun w r (request_target w element) [options] = Throws e →
  ∃ p w', Fullscrn.request (fullscrn w0) element options w = Normal p w' ∧
          outcome p w' = Some (Rejected e) ∧
          ∀ ts, outcome p (run_tasks ts w') = Some (Rejected e).
Proof.
  intros Hsel Hm Hthrow. rewrite (fullscrn_supported _ _ Hsel). cbn.
  rewrite request_eq. eexists _, _. split; [reflexivity|].
  assert (Hrej : outcome (length (outcomes w)) (request_world fn element options w)
                 = Some (Rejected e)).
  { unfold request_world. rewrite Hm, Hthrow. unfold outcome.
    apply outcomes_settle_outcome_pending. cbn.
    by rewrite lookup_app_r, Nat.sub_diag. }
  split; [done|]. intros ts.
  by apply (keeps_final_run_tasks ts _ _ _ Hrej).
Qed.

Lemma request_sync_throw_witness :
  ∃ p w', Fullscrn.request (fullscrn throwing_host) VUndefined VUndefined throwing_host
            = Normal p w' ∧
          outcome p w' = Some (Rejected (VStr "denied")) ∧
          ∀ ts, outcome p (run_tasks ts w') = Some (Rejected (VStr "denied")).
Proof.
  exact (request_sync_throw throwing_host throwing_host standard_fn
           VUndefined VUndefined 0 (VStr "denied") eq_refl eq_refl eq_refl).
Defined.

(** ** Subscriptions *)

Lemma drain_fields (w : World) :
  props (drain w) = props w ∧ settled (drain w) = settled w ∧
  reactions (drain w) = reactions w ∧ calls (drain w) = calls w ∧
  fired (drain w) = fired w.
Proof.
  apply (drain_ind (λ w', props w' = props w ∧ settled w' = settled w ∧
                          reactions w' = reactions w ∧ calls w' = calls w ∧
                          fired w' = fired w)); [|done].
  intros w' j rest _ (H1 & H2 & H3 & H4 & H5).
  destruct (run_job_fields j (set_jobs (λ _, rest) w')) as (-> & -> & -> & -> & ->).
  done.
Qed.

(** Nothing in the event loop adds a listener. *)
Lemma listeners_run_job (j : Job) (w : World) (l : Listener) :
  l ∈ listeners (run_job j w) → l ∈ listeners w.
Proof.
  rewrite run_job_eq. destruct j as [[|e] cb p|e p]; cbn; try done.
  - apply invoked_listeners.
  - by rewrite listeners_settle_outcome.
Qed.

Lemma listeners_drain (w : World) (l : Listener) :
  l ∈ listeners (drain w) → l ∈ listeners w.
Proof.
  apply (drain_ind (λ w', l ∈ listeners w' → l ∈ listeners w)); [|done].
  intros w' j rest _ Hw' Hin. apply Hw'. by apply listeners_run_job in Hin.
Qed.

Lemma listeners_dispatch_loop (snapshot : list Listener) (w : World) (l : Listener) :
  l ∈ listeners (dispatch_loop snapshot w) → l ∈ listeners w.
Proof.
  revert w. induction snapshot as [|l' rest IH]; intros w; cbn; [done|].
  intros H. apply IH in H. destruct (decide (l' ∈ listeners w)); [|done].
  apply listeners_drain in H. by apply invoked_listeners in H.
Qed.

Lemma listeners_step (t : Task) (w : World) (l : Listener) :
  l ∈ listeners (step t w) → l ∈ listeners w.
Proof.
  destruct t as [type|a s|k [v|]|]; cbn; try done.
  - apply listeners_dispatch_loop.
  - unfold settle. by destruct (settled w !! a).
  - apply listeners_drain.
Qed.

Lemma listeners_run_task (t : Task) (w : World) (l : Listener) :
  l ∈ listeners (run_task t w) → l ∈ listeners w.
Proof. unfold run_task. intros H. by apply listeners_step with t, listeners_drain. Qed.

Lemma listeners_steps (ts : list Task) (w : World) (l : Listener) :
  l ∈ listeners (steps ts w) → l ∈ listeners w.
Proof.
  unfold steps. revert w. induction ts as [|t ts IH]; intros w; cbn; [done|].
  intros H. by apply listeners_step with t, IH.
Qed.

Lemma listeners_run_tasks (ts : list Task) (w : World) (l : Listener) :
  l ∈ listeners (run_tasks ts w) → l ∈ listeners w.
Proof.
  unfold run_tasks. intros H.
  by apply listeners_drain, listeners_steps with ts, listeners_drain.
Qed.

(** An event only reaches the callbacks registered for its type. *)
Lemma fired_dispatch_loop (snapshot : list Listener) (w : World) :
  ∃ extra, fired (dispatch_loop snapshot w) = fired w ++ extra ∧
           ∀ cb, cb ∈ extra → ∃ l, l ∈ snapshot ∧ l.2 = cb.
Proof.
  revert w. induction snapshot as [|l rest IH]; intros w; cbn.
  - exists []. split; [by rewrite app_nil_r|]. by intros cb ?%elem_of_nil.
  - destruct (decide (l ∈ listeners w)).
    + destruct (IH (drain (world_of (invoke l.2 (set_fired (λ f, f ++ [l.2]) w)))))
        as (extra & -> & Hex).
      destruct (drain_fields (world_of (invoke l.2 (set_fired (λ f, f ++ [l.2]) w))))
        as (_ & _ & _ & _ & ->).
      fold (invoked l.2 (set_fired (λ f, f ++ [l.2]) w)).
      destruct (invoked_fields l.2 (set_fired (λ f, f ++ [l.2]) w))
        as (_ & _ & _ & _ & _ & ->). cbn.
      exists (l.2 :: extra). split; [by rewrite <- app_assoc|].
      intros cb [->|Hcb]%elem_of_cons.
      * exists l. split; [left|done].
      * destruct (Hex cb Hcb) as (l' & ? & ?). exists l'. split; [by right|done].
    + destruct (IH w) as (extra & -> & Hex). exists extra. split; [done|].
      intros cb Hcb. destruct (Hex cb Hcb) as (l' & ? & ?).
      exists l'. split; [by right|done].
Qed.

Lemma newly_fired_dispatch (type : string) (w : World) (cb : Callback) :
  cb ∈ newly_fired w (run_task (TDispatch type) w) → (type, cb) ∈ listeners w.
Proof.
  unfold newly_fired, run_task, step, dispatch.
  destruct (drain_fields (dispatch_loop (filter (λ l, l.1 = type) (listeners w)) w))
    as (_ & _ & _ & _ & ->).
  destruct (fired_dispatch_loop (filter (λ l, l.1 = type) (listeners w)) w)
    as (extra & -> & Hex).
  rewrite drop_app_length. intros (l & Hl & <-)%Hex.
  apply list_elem_of_filter in Hl as [<- Hl]. by destruct l.
Qed.


Lemma change_name_truthy (w0 : World) (fn : list string) (event : EventName) :
  select_fn w0 = Some fn → truthy (VStr (eventNames fn event)) = true.
Proof. intros [-> | ->]%select_fn_in_table; by destruct event. Qed.



(** ** A pending promise and the event loop *)

Section Waiting.

Context (ev : string) (cb : Callback) (p : nat) (tracked : option nat).
Hypothesis Hcb : closure_of cb = Some p.

Local Abbreviation waiting := (waiting ev cb p tracked).

Lemma waiting_set_fired (f : list Callback → list Callback) (w : World) :
  waiting w → waiting (set_fired f w).
Proof. by intros []. Qed.

Lemma waiting_set_jobs (f : list Job → list Job) (w : World) :
  waiting w → waiting (set_jobs f w).
Proof. by intros []. Qed.

Lemma waiting_set_props (f : gmap string JsVal → gmap string JsVal) (w : World) :
  waiting w → waiting (set_props f w).
Proof. by intros []. Qed.

Lemma waiting_settle_outcome (q : nat) (s : PState) (w : World) :
  q ≠ p → waiting w → waiting (settle_outcome q s w).
Proof.
  intros Hq [H1 H2 H3 H4 H5].
  destruct (settle_outcome_fields q s w) as (_ & Hl & Hs & Hr & _).
  split; rewrite ?Hl, ?Hs, ?Hr; try done.
  by rewrite outcomes_settle_outcome_ne.
Qed.

Lemma waiting_invoked (c : Callback) (w : World) :
  closure_of c ≠ Some p → waiting w → waiting (invoked c w).
Proof.
  intros Hc [H1 H2 H3 H4 H5].
  destruct (invoked_fields c w) as (_ & Hs & Hr & _).
  destruct (invoked_listeners c w) as [Hsub Hkeep].
  split; rewrite ?Hs, ?Hr; try done.
  - rewrite invoked_outcomes. destruct (closure_of c) as [q|]; [|done].
    rewrite outcomes_settle_outcome_ne; [done|congruence].
  - apply Hkeep; [done|]. cbn. congruence.
  - intros l Hl. apply H4. by apply Hsub.
Qed.

Lemma waiting_run_job (j : Job) (w : World) :
  foreign_job p j → waiting w → waiting (run_job j w).
Proof.
  rewrite run_job_eq. destruct j as [[|e] c q|e q]; cbn.
  - intros [Hc Hq] Hw. by apply waiting_invoked.
  - intros _ Hw. by apply waiting_set_jobs.
  - intros Hq Hw. by apply waiting_settle_outcome.
Qed.

(** *** While nothing decides *)

(** [p] waits and no job in the queue concerns it. *)
Local Abbreviation calm := (λ w : World, waiting w ∧ Forall (foreign_job p) (jobs w)).

Lemma foreign_jobs_run_job (j : Job) (rest : list Job) (w : World) :
  foreign_job p j → Forall (foreign_job p) rest →
  Forall (foreign_job p) (jobs (run_job j (set_jobs (λ _, rest) w))).
Proof.
  intros Hj Hrest. rewrite jobs_run_job. cbn. apply Forall_app. split; [done|].
  destruct j as [[|e] c q|e q]; [constructor| |constructor].
  apply Forall_cons. split; [exact Hj|constructor].
Qed.

Lemma calm_drain (w : World) : calm w → calm (drain w).
Proof.
  apply (drain_ind calm). intros w' j rest Hj [Hw Hf].
  rewrite Hj in Hf. apply Forall_cons in Hf as [Hfj Hfr]. split.
  - by apply waiting_run_job, waiting_set_jobs.
  - by apply foreign_jobs_run_job.
Qed.

Lemma calm_invoked (c : Callback) (w : World) :
  closure_of c ≠ Some p → calm w → calm (invoked c w).
Proof.
  intros Hc [Hw Hf]. split; [by apply waiting_invoked|].
  by destruct (invoked_fields c w) as (_ & _ & _ & -> & _).
Qed.

(** Listeners of other promises leave [p] waiting. *)
Lemma calm_dispatch_loop (snapshot : list Listener) (w : World) :
  (∀ l, l ∈ snapshot → closure_of l.2 ≠ Some p) →
  calm w → calm (dispatch_loop snapshot w).
Proof.
  revert w. induction snapshot as [|l rest IH]; intros w Hsnap Hw; cbn; [done|].
  assert (Hrest : ∀ l', l' ∈ rest → closure_of l'.2 ≠ Some p).
  { intros l' Hl'. apply Hsnap. by right. }
  destruct (decide (l ∈ listeners w)); [|by apply IH].
  apply IH; [done|].
  fold (invoked l.2 (set_fired (λ f, f ++ [l.2]) w)).
  apply calm_drain, calm_invoked; [apply Hsnap; left|].
  destruct Hw as [Hw Hf]. split; [by apply waiting_set_fired|done].
Qed.

(** Settling another host promise wakes only jobs of other promises. *)
Lemma calm_settle (a : nat) (s : Settled) (w : World) :
  tracked ≠ Some a → calm w → calm (settle a s w).
Proof.
  intros Ha [Hw Hf]. unfold settle.
  destruct (settled w !! a) eqn:Hsa; [done|].
  destruct Hw as [H1 H2 H3 H4 H5]. split.
  - split; cbn; try done.
    + intros a' Ha'. destruct (H3 a' Ha') as [Hs Hr]. split.
      * rewrite lookup_insert_ne; [done|congruence].
      * apply list_elem_of_filter. split; [|done]. cbn. congruence.
    + intros r [_ Hr]%list_elem_of_filter. by apply H5.
  - cbn. apply Forall_app. split; [done|]. apply Forall_forall.
    intros j (r & -> & [Hon Hr]%list_elem_of_filter)%list_elem_of_fmap.
    assert (Hno : closure_of (r_then r) ≠ Some p ∧ r_reject r ≠ p).
    { split; intros Htouch; apply Ha; rewrite <- Hon; apply H5; auto. }
    destruct s; cbn; tauto.
Qed.

Lemma calm_step (t : Task) (w : World) :
  quiet ev tracked t → calm w → calm (step t w).
Proof.
  intros Hq Hw. unfold quiet, decides in Hq.
  destruct t as [type|a s|k [v|]|]; cbn.
  - case_decide as Hty; [done|].
    apply calm_dispatch_loop; [|done].
    intros l [Hl1 Hl]%list_elem_of_filter Hc. apply Hty.
    rewrite <- Hl1. by apply (wt_listeners _ _ _ _ _ (proj1 Hw)).
  - case_decide as Ha; [done|]. by apply calm_settle.
  - destruct Hw as [Hw Hf]. split; [by apply waiting_set_props|done].
  - destruct Hw as [Hw Hf]. split; [by apply waiting_set_props|done].
  - by apply calm_drain.
Qed.

Lemma calm_steps (ts : list Task) (w : World) :
  Forall (quiet ev tracked) ts → calm w → calm (steps ts w).
Proof.
  intros Hq. revert w. induction Hq as [|t ts Ht _ IH]; intros w Hw; [done|].
  rewrite steps_cons. by apply IH, calm_step.
Qed.

(** *** The change event *)

(** The awaited event reaches the closure, which resolves [p]. *)
Lemma dispatch_loop_resolves (snapshot : list Listener) (w : World) :
  (calm w ∧ (ev, cb) ∈ snapshot) ∨ outcomes w !! p = Some Fulfilled →
  outcomes (dispatch_loop snapshot w) !! p = Some Fulfilled.
Proof.
  revert w. induction snapshot as [|l rest IH]; intros w [(Hw & Hin)|Hdone]; cbn.
  - by apply elem_of_nil in Hin.
  - done.
  - apply IH.
    destruct (decide (l ∈ listeners w)) as [Hl|Hl].
    + fold (invoked l.2 (set_fired (λ f, f ++ [l.2]) w)).
      destruct (decide (closure_of l.2 = Some p)) as [Hc|Hc].
      * right. apply (keeps_final_drain _ p Fulfilled); [|done].
        rewrite invoked_outcomes, Hc.
        apply outcomes_settle_outcome_pending, Hw.
      * left. split.
        -- apply calm_drain, calm_invoked; [done|].
           destruct Hw as [Hw Hf]. split; [by apply waiting_set_fired|done].
        -- apply elem_of_cons in Hin as [Heq|Hin]; [|done].
           subst l. cbn in Hc. congruence.
    + left. split; [done|].
      apply elem_of_cons in Hin as [Heq|Hin]; [|done].
      subst l. destruct Hl. apply Hw.
  - apply IH. right.
    destruct (decide (l ∈ listeners w)); [|done].
    apply (keeps_final_drain _ p Fulfilled); [|done].
    apply (keeps_final_invoked l.2 (set_fired (λ f, f ++ [l.2]) w) p Fulfilled); done.
Qed.

Lemma dispatch_resolves (w : World) :
  calm w → outcomes (step (TDispatch ev) w) !! p = Some Fulfilled.
Proof.
  intros Hw. cbn. apply dispatch_loop_resolves. left. split; [done|].
  apply list_elem_of_filter. split; [done|apply Hw].
Qed.

(** *** The host promise is fulfilled *)

Lemma fulfilling_invoked (c : Callback) (w : World) :
  fulfilling p w → fulfilling p (invoked c w).
Proof.
  intros (Hj & Hr & Ho).
  destruct (invoked_fields c w) as (_ & _ & Hre & Hjo & _).
  split; [by rewrite Hjo|]. split; [by rewrite Hre|].
  rewrite Hjo, invoked_outcomes.
  destruct Ho as [Ho|[Ho Hin]].
  - left. destruct (closure_of c); [|done]. by apply outcomes_settle_outcome_final.
  - destruct (closure_of c) as [q|]; [|by right].
    destruct (decide (q = p)) as [->|Hne].
    + left. by apply outcomes_settle_outcome_pending.
    + right. by rewrite outcomes_settle_outcome_ne.
Qed.

Lemma fulfilling_drain (w : World) : fulfilling p w → fulfilling p (drain w).
Proof.
  apply (drain_ind (fulfilling p)). intros w' j rest Hj (Hh & Hr & Ho).
  rewrite Hj in Hh. apply Forall_cons in Hh as [Hhj Hhr].
  destruct (run_job_fields j (set_jobs (λ _, rest) w')) as (_ & _ & Hre & _).
  split; [|split; [by rewrite Hre|]].
  - rewrite jobs_run_job. cbn. apply Forall_app. split; [done|].
    destruct j as [[|e] c q|e q]; [constructor| |constructor].
    apply Forall_cons. split; [exact Hhj|constructor].
  - rewrite run_job_eq. destruct j as [[|e] c q|e q].
    + destruct (invoked_fields c (set_jobs (λ _, rest) w')) as (_ & _ & _ & -> & _).
      rewrite invoked_outcomes. cbn.
      destruct Ho as [Ho|(Ho & c' & q' & Hin & Hc')].
      * left. destruct (closure_of c); [|done]. by apply outcomes_settle_outcome_final.
      * destruct (decide (closure_of c = Some p)) as [Hc|Hc].
        -- left. rewrite Hc. by apply outcomes_settle_outcome_pending.
        -- right. split.
           ++ destruct (closure_of c) as [x|]; [|done].
              rewrite outcomes_settle_outcome_ne; [done|congruence].
           ++ rewrite Hj in Hin. apply elem_of_cons in Hin as [Heq|Hin]; [|eauto].
              injection Heq as <- <-. congruence.
    + cbn. destruct Ho as [Ho|(Ho & c' & q' & Hin & Hc')]; [by left|].
      right. split; [done|]. exists c', q'. split; [|done].
      rewrite Hj in Hin. apply elem_of_cons in Hin as [Heq|Hin]; [discriminate|].
      apply elem_of_app. by left.
    + cbn in Hhj.
      destruct (settle_outcome_fields q (Rejected e) (set_jobs (λ _, rest) w'))
        as (_ & _ & _ & _ & -> & _). cbn.
      destruct Ho as [Ho|(Ho & c' & q' & Hin & Hc')].
      * left. by apply outcomes_settle_outcome_final.
      * right. split; [by rewrite outcomes_settle_outcome_ne|].
        exists c', q'. split; [|done].
        rewrite Hj in Hin. by apply elem_of_cons in Hin as [Heq|Hin]; [discriminate|].
Qed.

Lemma fulfilling_dispatch_loop (snapshot : list Listener) (w : World) :
  fulfilling p w → fulfilling p (dispatch_loop snapshot w).
Proof.
  revert w. induction snapshot as [|l rest IH]; intros w Hw; cbn; [done|].
  apply IH. destruct (decide (l ∈ listeners w)); [|done].
  apply fulfilling_drain.
  apply (fulfilling_invoked l.2 (set_fired (λ f, f ++ [l.2]) w)).
  exact Hw.
Qed.

Lemma fulfilling_step (t : Task) (w : World) : fulfilling p w → fulfilling p (step t w).
Proof.
  intros Hw. destruct t as [type|a s|k [v|]|]; cbn; try done.
  - by apply fulfilling_dispatch_loop.
  - unfold settle. destruct (settled w !! a); [done|].
    destruct Hw as (Hh & Hr & Ho). split; [|split].
    + cbn. apply Forall_app. split; [done|]. apply Forall_forall.
      intros j (r & -> & [_ Hin]%list_elem_of_filter)%list_elem_of_fmap.
      destruct s; cbn; [done|by apply Hr].
    + cbn. intros r [_ Hin]%list_elem_of_filter. by apply Hr.
    + cbn. destruct Ho as [Ho|(Ho & c & q & Hin & Hc)]; [by left|].
      right. split; [done|]. exists c, q. split; [|done]. apply elem_of_app. by left.
  - by apply fulfilling_drain.
Qed.

Lemma fulfilling_steps (ts : list Task) (w : World) :
  fulfilling p w → fulfilling p (steps ts w).
Proof.
  revert w. induction ts as [|t ts IH]; intros w Hw; [done|].
  rewrite steps_cons. by apply IH, fulfilling_step.
Qed.

Lemma fulfilling_done (w : World) :
  fulfilling p w → jobs w = [] → outcomes w !! p = Some Fulfilled.
Proof.
  intros (_ & _ & [Ho|(_ & c & q & Hin & _)]) Hj; [done|].
  rewrite Hj in Hin. by apply elem_of_nil in Hin.
Qed.

Lemma fulfilling_outcome (ts : list Task) (w : World) :
  fulfilling p w → outcome p (run_tasks ts w) = Some Fulfilled.
Proof.
  intros Hw. unfold outcome, run_tasks.
  apply fulfilling_done; [|apply jobs_drain].
  by apply fulfilling_drain, fulfilling_steps, fulfilling_drain.
Qed.

Lemma settle_fulfilled_starts (a : nat) (w : World) :
  tracked = Some a → calm w → fulfilling p (settle a SFulfilled w).
Proof.
  intros Ha [[H1 H2 H3 H4 H5] Hf]. destruct (H3 a Ha) as [Hsa Hin].
  unfold settle. rewrite Hsa. split; [|split]; cbn.
  - apply Forall_app. split.
    + eapply Forall_impl; [exact Hf|]. intros [[|e] c q|e q]; cbn; tauto.
    + apply Forall_forall. by intros j (r & -> & _)%list_elem_of_fmap.
  - intros r [Hon Hr]%list_elem_of_filter Hrej. apply Hon.
    assert (tracked = Some (r_on r)) as Ht by (apply H5; auto). congruence.
  - right. split; [done|]. exists cb, p. split; [|done].
    apply elem_of_app. right.
    apply (list_elem_of_fmap_2 (λ r, JThen SFulfilled (r_then r) (r_reject r))
             _ (mkReaction a cb p)).
    by apply list_elem_of_filter.
Qed.

(** *** The host promise is rejected *)

Lemma rejecting_invoked (e : JsVal) (c : Callback) (w : World) :
  closure_of c ≠ Some p → rejecting_state ev p e w → rejecting_state ev p e (invoked c w).
Proof.
  intros Hc (Hj & Hr & Hl & Ho).
  destruct (invoked_fields c w) as (_ & _ & Hre & Hjo & _).
  split; [by rewrite Hjo|]. split; [by rewrite Hre|]. split.
  - intros l Hin. apply Hl. by apply (proj1 (invoked_listeners c w)).
  - rewrite Hjo, invoked_outcomes.
    destruct (closure_of c) as [q|]; [|done].
    destruct Ho as [Ho|[Ho Hex]].
    + left. by apply outcomes_settle_outcome_final.
    + right. split; [|done]. rewrite outcomes_settle_outcome_ne; [done|congruence].
Qed.

Lemma rejecting_run_job (e : JsVal) (w' : World) (j : Job) (rest : list Job) :
  jobs w' = j :: rest →
  rejecting_state ev p e w' →
  rejecting_state ev p e (run_job j (set_jobs (λ _, rest) w')).
Proof.
  intros Hj (Hh & Hr & Hl & Ho).
  rewrite Hj in Hh. apply Forall_cons in Hh as [Hhj Hhr].
  destruct (run_job_fields j (set_jobs (λ _, rest) w')) as (_ & _ & Hre & _).
  split; [|split; [by rewrite Hre|split]].
  - rewrite jobs_run_job. cbn. apply Forall_app. split; [done|].
    destruct j as [[|e'] c q|e' q]; [constructor| |constructor].
    apply Forall_cons. split; [|constructor]. cbn in Hhj |- *. tauto.
  - intros l Hin. apply Hl. by apply listeners_run_job in Hin.
  - assert (Hex : Exists (rejecting p e) (jobs w') →
                  rejecting p e j ∨ Exists (rejecting p e) rest).
    { rewrite Hj. intros [?|?]%Exists_cons; auto. }
    rewrite jobs_run_job, run_job_eq. destruct j as [[|e'] c q|e' q]; cbn.
    + destruct Hhj as [[Hc Hq]|[]].
      rewrite invoked_outcomes. cbn. rewrite app_nil_r.
      destruct Ho as [Ho|[Ho Hx]].
      * left. destruct (closure_of c); [|done]. by apply outcomes_settle_outcome_final.
      * right. split.
        -- destruct (closure_of c) as [x|]; [|done].
           rewrite outcomes_settle_outcome_ne; [done|congruence].
        -- by destruct (Hex Hx) as [[]|?].
    + destruct Ho as [Ho|[Ho Hx]]; [by left|]. right. split; [done|].
      apply Exists_app. destruct (Hex Hx) as [[-> ->]|?]; [|by left].
      right. by left.
    + rewrite app_nil_r. destruct Ho as [Ho|[Ho Hx]].
      * left. by apply outcomes_settle_outcome_final.
      * destruct (decide (q = p)) as [->|Hne].
        -- destruct Hhj as [Hq|[_ ->]]; [done|].
           left. by apply outcomes_settle_outcome_pending.
        -- right. split; [by rewrite outcomes_settle_outcome_ne|].
           destruct (Hex Hx) as [[? _]|?]; [done|done].
Qed.

Lemma rejecting_drain (e : JsVal) (w : World) :
  rejecting_state ev p e w → rejecting_state ev p e (drain w).
Proof. apply (drain_ind (rejecting_state ev p e)). apply rejecting_run_job. Qed.

Lemma rejecting_dispatch_loop (e : JsVal) (snapshot : list Listener) (w : World) :
  (∀ l, l ∈ snapshot → l.1 ≠ ev) →
  rejecting_state ev p e w → rejecting_state ev p e (dispatch_loop snapshot w).
Proof.
  revert w. induction snapshot as [|l rest IH]; intros w Hsnap Hw; cbn; [done|].
  assert (Hrest : ∀ l', l' ∈ rest → l'.1 ≠ ev).
  { intros l' Hl'. apply Hsnap. by right. }
  destruct (decide (l ∈ listeners w)) as [Hl|Hl]; [|by apply IH].
  apply IH; [done|]. apply rejecting_drain.
  apply (rejecting_invoked e l.2 (set_fired (λ f, f ++ [l.2]) w)); [|exact Hw].
  intros Hc. apply (Hsnap l); [left|].
  destruct Hw as (_ & _ & Hiso & _). by apply Hiso.
Qed.

Lemma rejecting_step (e : JsVal) (t : Task) (w : World) :
  t ≠ TDispatch ev → rejecting_state ev p e w → rejecting_state ev p e (step t w).
Proof.
  intros Ht Hw. destruct t as [type|a s|k [v|]|]; cbn; try done.
  - apply rejecting_dispatch_loop; [|done].
    intros l [Hl1 _]%list_elem_of_filter Heq. apply Ht. congruence.
  - unfold settle. destruct (settled w !! a); [done|].
    destruct Hw as (Hh & Hr & Hl & Ho). split; [|split; [|split]]; cbn; try done.
    + apply Forall_app. split; [done|]. apply Forall_forall.
      intros j (r & -> & [_ Hin]%list_elem_of_filter)%list_elem_of_fmap.
      left. destruct (Hr r Hin). destruct s; cbn; tauto.
    + intros r [_ Hin]%list_elem_of_filter. by apply Hr.
    + destruct Ho as [Ho|[Ho Hx]]; [by left|]. right. split; [done|].
      apply Exists_app. by left.
  - by apply rejecting_drain.
Qed.

Lemma rejecting_steps (e : JsVal) (ts : list Task) (w : World) :
  Forall (λ t, t ≠ TDispatch ev) ts →
  rejecting_state ev p e w → rejecting_state ev p e (steps ts w).
Proof.
  intros Hq. revert w. induction Hq as [|t ts Ht _ IH]; intros w Hw; [done|].
  rewrite steps_cons. by apply IH, rejecting_step.
Qed.

Lemma rejecting_done (e : JsVal) (w : World) :
  rejecting_state ev p e w → jobs w = [] → outcomes w !! p = Some (Rejected e).
Proof.
  intros (_ & _ & _ & [Ho|[_ Hx]]) Hj; [done|].
  rewrite Hj in Hx. by apply Exists_nil in Hx.
Qed.

Lemma rejecting_outcome (e : JsVal) (ts : list Task) (w : World) :
  rejecting_state ev p e w → outcome p (run_tasks ts w) = Some (Rejected e).
Proof.
  intros Hw. unfold outcome, run_tasks.
  apply (keeps_final_drain _ p (Rejected e)); [|done].
  apply (keeps_final_steps ts _ p (Rejected e)); [|done].
  apply rejecting_done; [by apply rejecting_drain|apply jobs_drain].
Qed.

Lemma settle_rejected_starts (a : nat) (e : JsVal) (w : World) :
  tracked = Some a → calm w → rejecting_state ev p e (settle a (SRejected e) w).
Proof.
  intros Ha [[H1 H2 H3 H4 H5] Hf]. destruct (H3 a Ha) as [Hsa Hin].
  unfold settle. rewrite Hsa. split; [|split; [|split]]; cbn.
  - apply Forall_app. split.
    + eapply Forall_impl; [exact Hf|]. by left.
    + apply Forall_forall.
      intros j (r & -> & _)%list_elem_of_fmap. cbn.
      destruct (decide (r_reject r = p)); [by right|by left].
  - intros r [Hon Hr]%list_elem_of_filter.
    split; intros Htouch; apply Hon;
      (assert (tracked = Some (r_on r)) as Ht by (apply H5; auto)); congruence.
  - exact H4.
  - right. split; [done|]. apply Exists_app. right. apply Exists_exists.
    exists (JThen (SRejected e) cb p). split; [|done].
    apply (list_elem_of_fmap_2 (λ r, JThen (SRejected e) (r_then r) (r_reject r))
             _ (mkReaction a cb p)).
    by apply list_elem_of_filter.
Qed.

(** *** The listener outlives a rejection *)

(** Only the closure itself takes its listener off, and nothing calls
    the closure but the change event and a fulfilled reaction. *)
Lemma listener_kept_invoked (c : Callback) (w : World) :
  closure_of c ≠ Some p → (ev, cb) ∈ listeners w → (ev, cb) ∈ listeners (invoked c w).
Proof.
  intros Hc Hin. apply (proj2 (invoked_listeners c w)); [done|].
  cbn. intros ->. by apply Hc.
Qed.

Lemma listener_kept_run_job (e : JsVal) (j : Job) (w : World) :
  foreign_job p j ∨ rejecting p e j →
  (ev, cb) ∈ listeners w → (ev, cb) ∈ listeners (run_job j w).
Proof.
  intros Hj Hin. rewrite run_job_eq. destruct j as [[|e'] c q|e' q]; cbn; try done.
  - destruct Hj as [[Hc _]|[]]. by apply listener_kept_invoked.
  - by rewrite listeners_settle_outcome.
Qed.

Lemma listener_kept_drain (e : JsVal) (w : World) :
  rejecting_state ev p e w ∧ (ev, cb) ∈ listeners w →
  rejecting_state ev p e (drain w) ∧ (ev, cb) ∈ listeners (drain w).
Proof.
  apply (drain_ind (λ w', rejecting_state ev p e w' ∧ (ev, cb) ∈ listeners w')).
  intros w' j rest Hj [Hw Hin]. split; [by apply rejecting_run_job|].
  apply (listener_kept_run_job e); [|done].
  destruct Hw as (Hh & _). rewrite Hj in Hh. by apply Forall_cons in Hh as [Hhj _].
Qed.

Lemma listener_kept_dispatch_loop (e : JsVal) (snapshot : list Listener) (w : World) :
  (∀ l, l ∈ snapshot → l.1 ≠ ev) →
  rejecting_state ev p e w ∧ (ev, cb) ∈ listeners w →
  rejecting_state ev p e (dispatch_loop snapshot w) ∧
  (ev, cb) ∈ listeners (dispatch_loop snapshot w).
Proof.
  revert w. induction snapshot as [|l rest IH]; intros w Hsnap Hw; cbn; [done|].
  assert (Hrest : ∀ l', l' ∈ rest → l'.1 ≠ ev).
  { intros l' Hl'. apply Hsnap. by right. }
  destruct (decide (l ∈ listeners w)) as [Hl|Hl]; [|by apply IH].
  apply IH; [done|]. apply listener_kept_drain.
  fold (invoked l.2 (set_fired (λ f, f ++ [l.2]) w)).
  assert (Hc : closure_of l.2 ≠ Some p).
  { intros Hc. apply (Hsnap l); [left|].
    destruct Hw as [(_ & _ & Hiso & _) _]. by apply Hiso. }
  destruct Hw as [Hw Hin]. split.
  - by apply (rejecting_invoked e l.2 (set_fired (λ f, f ++ [l.2]) w)).
  - by apply (listener_kept_invoked l.2 (set_fired (λ f, f ++ [l.2]) w)).
Qed.

Lemma listener_kept_step (e : JsVal) (t : Task) (w : World) :
  t ≠ TDispatch ev →
  rejecting_state ev p e w ∧ (ev, cb) ∈ listeners w →
  rejecting_state ev p e (step t w) ∧ (ev, cb) ∈ listeners (step t w).
Proof.
  intros Ht [Hw Hin]. split; [by apply rejecting_step|].
  destruct t as [type|a s|k [v|]|]; cbn; try done.
  - apply (listener_kept_dispatch_loop e); [|done].
    intros l [Hl1 _]%list_elem_of_filter Heq. apply Ht. congruence.
  - unfold settle. by destruct (settled w !! a).
  - by apply (listener_kept_drain e).
Qed.

Lemma listener_kept_steps (e : JsVal) (ts : list Task) (w : World) :
  Forall (λ t, t ≠ TDispatch ev) ts →
  rejecting_state ev p e w ∧ (ev, cb) ∈ listeners w →
  rejecting_state ev p e (steps ts w) ∧ (ev, cb) ∈ listeners (steps ts w).
Proof.
  intros Hq. revert w. induction Hq as [|t ts Ht _ IH]; intros w Hw; [done|].
  rewrite steps_cons. by apply IH, listener_kept_step.
Qed.

(** After the rejection of the tracked promise, and whatever follows
    but a change event, [p] is rejected at the end of the task and the
    listener is still there. *)
Lemma calm_rejected (a : nat) (e : JsVal) (ts ts2 : list Task) (w : World) :
  calm w → Forall (quiet ev tracked) ts → tracked = Some a →
  Forall (λ t, t ≠ TDispatch ev) ts2 →
  outcome p (run_tasks (ts ++ TSettle a (SRejected e) :: ts2) w) = Some (Rejected e) ∧
  (ev, cb) ∈ listeners (run_tasks (ts ++ TSettle a (SRejected e) :: ts2) w).
Proof.
  intros Hw Hq Ha Hts2. unfold outcome, run_tasks.
  assert (Hwq : calm (steps ts (drain w))) by by apply calm_steps, calm_drain.
  rewrite steps_app, steps_cons.
  assert (Hr : rejecting_state ev p e
                 (drain (steps ts2 (step (TSettle a (SRejected e)) (steps ts (drain w))))) ∧
               (ev, cb) ∈ listeners
                 (drain (steps ts2 (step (TSettle a (SRejected e)) (steps ts (drain w)))))).
  { apply listener_kept_drain, listener_kept_steps; [done|]. split.
    - cbn. by apply settle_rejected_starts.
    - cbn. unfold settle. destruct (settled (steps ts (drain w)) !! a); apply Hwq. }
  split; [|apply Hr]. apply rejecting_done; [apply Hr|apply jobs_drain].
Qed.

(** *** What becomes of a waiting promise *)

Lemma calm_outcomes (ts : list Task) (w : World) :
  calm w → Forall (quiet ev tracked) ts →
  outcome p (run_tasks ts w) = Some Pending ∧
  (∀ ts', outcome p (run_tasks (ts ++ TDispatch ev :: ts') w) = Some Fulfilled) ∧
  (∀ a ts', tracked = Some a →
            outcome p (run_tasks (ts ++ TSettle a SFulfilled :: ts') w) = Some Fulfilled) ∧
  (∀ a e ts2, tracked = Some a → Forall (λ t, t ≠ TDispatch ev) ts2 →
     outcome p (run_tasks (ts ++ TSettle a (SRejected e) :: ts2) w) = Some (Rejected e) ∧
     ∀ ts', outcome p (run_tasks (ts ++ TSettle a (SRejected e) :: ts2 ++ TCheckpoint :: ts') w)
              = Some (Rejected e)).
Proof.
  intros Hw Hq. unfold outcome, run_tasks.
  assert (Hwq : calm (steps ts (drain w))) by by apply calm_steps, calm_drain.
  split; [|split; [|split]].
  - apply (calm_drain _ Hwq).
  - intros ts'. rewrite steps_app, steps_cons.
    apply (keeps_final_drain _ p Fulfilled); [|done].
    apply (keeps_final_steps ts' _ p Fulfilled); [|done].
    by apply dispatch_resolves.
  - intros a ts' Ha. rewrite steps_app, steps_cons.
    apply fulfilling_done; [|apply jobs_drain].
    apply fulfilling_drain, fulfilling_steps. cbn. by apply settle_fulfilled_starts.
  - intros a e ts2 Ha Hts2.
    assert (Hr : rejecting_state ev p e
                   (steps ts2 (step (TSettle a (SRejected e)) (steps ts (drain w))))).
    { apply rejecting_steps; [done|]. cbn. by apply settle_rejected_starts. }
    split.
    + rewrite steps_app, steps_cons.
      apply rejecting_done; [by apply rejecting_drain|apply jobs_drain].
    + intros ts'. rewrite steps_app, steps_cons, steps_app, steps_cons.
      apply (keeps_final_drain _ p (Rejected e)); [|done].
      apply (keeps_final_steps ts' _ p (Rejected e)); [|done].
      cbn. apply rejecting_done; [by apply rejecting_drain|apply jobs_drain].
Qed.

(** The listener stays while [p] waits. *)
Lemma calm_listener (ts : list Task) (w : World) :
  calm w → Forall (quiet ev tracked) ts → (ev, cb) ∈ listeners (run_tasks ts w).
Proof.
  intros Hw Hq. unfold run_tasks.
  assert (Hwq : calm (drain (steps ts (drain w))))
    by by apply calm_drain, calm_steps, calm_drain.
  apply Hwq.
Qed.

End Waiting.
(** ** From a call to a waiting promise *)

Lemma bounded_foreign (w : World) :
  well_formed w → Forall (foreign_job (length (outcomes w))) (jobs w).
Proof.
  intros (_ & _ & Hj). apply Forall_forall. intros j Hin. specialize (Hj j Hin).
  destruct j as [[|e] c q|e q]; cbn in *; try lia.
  destruct Hj as [Hq Hc]. split; [|lia].
  intros Hcl. specialize (Hc _ Hcl). lia.
Qed.

(** The state a bridging call leaves behind when the host promise it
    got, if any, is pending: its own promise waits. *)
Lemma bridge_waiting (ev : string) (cb : Callback) (v : JsVal) (w w' : World) :
  closure_of cb = Some (length (outcomes w)) →
  well_formed w →
  (∀ a, v = VPromise a → settled w !! a = None) →
  outcomes w' = outcomes w ++ [Pending] →
  listeners w' = (if decide ((ev, cb) ∈ listeners w)
                  then listeners w else listeners w ++ [(ev, cb)]) →
  settled w' = settled w →
  match awaitable_of v with
  | Some a =>
      match settled w !! a with
      | Some s => reactions w' = reactions w ∧
                  jobs w' = jobs w ++ [JThen s cb (length (outcomes w))]
      | None => reactions w' = reactions w ++ [mkReaction a cb (length (outcomes w))] ∧
                jobs w' = jobs w
      end
  | None => reactions w' = reactions w ∧ jobs w' = jobs w
  end →
  waiting ev cb (length (outcomes w)) (awaitable_of v) w' ∧
  Forall (foreign_job (length (outcomes w))) (jobs w').
Proof.
  set (p := length (outcomes w)).
  intros Hcb Hwf Hfresh Ho Hl Hs Hrest.
  pose proof (bounded_foreign w Hwf) as Hfor. fold p in Hfor.
  destruct Hwf as (Hwl & Hwr & Hwj).
  assert (Hrj : jobs w' = jobs w ∧
                (∀ a, awaitable_of v = Some a → mkReaction a cb p ∈ reactions w') ∧
                ∀ x, x ∈ reactions w' →
                     x ∈ reactions w ∨ awaitable_of v = Some (r_on x)).
  { destruct (awaitable_of v) as [a|] eqn:Hv.
    - destruct v; try discriminate. injection Hv as ->.
      rewrite (Hfresh a eq_refl) in Hrest. destruct Hrest as [-> ->].
      split; [done|]. split.
      + intros a' [= <-]. apply elem_of_app. right. by left.
      + intros x [Hx| ->%list_elem_of_singleton]%elem_of_app; auto.
    - destruct Hrest as [-> ->]. split; [done|]. split; [done|auto]. }
  destruct Hrj as (Hj & Hnew & Hrx). split; [|by rewrite Hj].
  split.
  - rewrite Ho. by rewrite lookup_app_r, Nat.sub_diag.
  - rewrite Hl. case_decide; [done|]. apply elem_of_app. right. by left.
  - intros a Ha. rewrite Hs. split; [|by apply Hnew].
    destruct v; try discriminate. injection Ha as ->. by apply Hfresh.
  - intros l Hin Hc. rewrite Hl in Hin.
    assert (l ∈ listeners w ∨ l = (ev, cb)) as [Hin'| ->].
    { case_decide; [by left|].
      apply elem_of_app in Hin as [?| ->%list_elem_of_singleton]; auto. }
    + specialize (Hwl l p Hin' Hc). unfold p in Hwl. lia.
    + done.
  - intros x Hx Htouch. destruct (Hrx x Hx) as [Hold|Hnw]; [|done].
    destruct (Hwr x Hold) as [Hlt Hcl].
    destruct Htouch as [Hc|Hrp].
    + specialize (Hcl p Hc). unfold p in Hcl. lia.
    + unfold p in Hrp. lia.
Qed.

(** The same when the host promise was settled already: the reaction is
    in the queue. *)
Lemma bridge_settled (ev : string) (cb : Callback) (a : nat) (s : Settled) (w w' : World) :
  closure_of cb = Some (length (outcomes w)) →
  well_formed w →
  outcomes w' = outcomes w ++ [Pending] →
  listeners w' = (if decide ((ev, cb) ∈ listeners w)
                  then listeners w else listeners w ++ [(ev, cb)]) →
  reactions w' = reactions w →
  jobs w' = jobs w ++ [JThen s cb (length (outcomes w))] →
  match s with
  | SFulfilled => fulfilling (length (outcomes w)) w'
  | SRejected e => rejecting_state ev (length (outcomes w)) e w'
  end.
Proof.
  set (p := length (outcomes w)).
  intros Hcb Hwf Ho Hl Hr Hj.
  pose proof (bounded_foreign w Hwf) as Hfor. fold p in Hfor.
  destruct Hwf as (Hwl & Hwr & Hwj).
  assert (Hp : outcomes w' !! p = Some Pending).
  { rewrite Ho. by rewrite lookup_app_r, Nat.sub_diag. }
  assert (Hre : ∀ r, r ∈ reactions w' → closure_of (r_then r) ≠ Some p ∧ r_reject r ≠ p).
  { rewrite Hr. intros r Hin. destruct (Hwr r Hin) as [Hlt Hcl]. split.
    - intros Hc. specialize (Hcl p Hc). unfold p in Hcl. lia.
    - unfold p. lia. }
  destruct s as [|e].
  - split; [|split].
    + rewrite Hj. apply Forall_app. split; [|by repeat constructor].
      eapply Forall_impl; [exact Hfor|]. intros [[|e] c q|e q]; cbn; tauto.
    + intros r Hin. by apply Hre.
    + right. split; [done|]. exists cb, p. split; [|done].
      rewrite Hj. apply elem_of_app. right. by left.
  - split; [|split; [|split]].
    + rewrite Hj. apply Forall_app. split.
      * eapply Forall_impl; [exact Hfor|]. by left.
      * apply Forall_cons. split; [by right|constructor].
    + exact Hre.
    + intros l Hin Hc. rewrite Hl in Hin.
      assert (l ∈ listeners w ∨ l = (ev, cb)) as [Hin'| ->].
      { case_decide; [by left|].
        apply elem_of_app in Hin as [?| ->%list_elem_of_singleton]; auto. }
      * specialize (Hwl l p Hin' Hc). unfold p in Hwl. lia.
      * done.
    + right. split; [done|]. rewrite Hj. apply Exists_app. right. by left.
Qed.

(** ** The promise returned by request *)

Lemma request_world_returns (fn : list string) (element options : JsVal)
    (w : World) (r : nat) (v : JsVal) :
  method_of w (request_target w element) (requestFullscreen fn) = VFun r →
  host_fun w r (request_target w element) [options] = Returns v →
  let p := length (outcomes w) in
  let cb := OnFullScreenEntered fn p in
  let w' := request_world fn element options w in
  outcomes w' = outcomes w ++ [Pending] ∧
  listeners w' = (if decide ((eventNames fn EvChange, cb) ∈ listeners w)
                  then listeners w else listeners w ++ [(eventNames fn EvChange, cb)]) ∧
  settled w' = settled w ∧
  match awaitable_of v with
  | Some a =>
      match settled w !! a with
      | Some s => reactions w' = reactions w ∧ jobs w' = jobs w ++ [JThen s cb p]
      | None => reactions w' = reactions w ++ [mkReaction a cb p] ∧ jobs w' = jobs w
      end
  | None => reactions w' = reactions w ∧ jobs w' = jobs w
  end.
Proof.
  intros Hm Hr p cb w'. subst w'. unfold request_world. rewrite Hm, Hr.
  destruct v; cbn; try done.
  unfold then_catch. cbn. by destruct (settled w !! a).
Qed.

Lemma request_call_returns (fn : list string) (element options : JsVal)
    (w : World) (v : JsVal) :
  request_call fn element options w = Returns v →
  ∃ r, method_of w (request_target w element) (requestFullscreen fn) = VFun r ∧
       host_fun w r (request_target w element) [options] = Returns v.
Proof.
  unfold request_call.
  destruct (method_of w (request_target w element) (requestFullscreen fn));
    try discriminate.
  intros H. by exists r.
Qed.

Lemma request_call_throws (fn : list string) (element options : JsVal)
    (w : World) (e : JsVal) :
  request_call fn element options w = Throws e →
  outcome (length (outcomes w)) (request_world fn element options w) = Some (Rejected e).
Proof.
  unfold request_call, request_world, outcome.
  destruct (method_of w (request_target w element) (requestFullscreen fn));
    try (intros [= <-]; apply outcomes_settle_outcome_pending; cbn;
         by rewrite lookup_app_r, Nat.sub_diag).
  intros ->. apply outcomes_settle_outcome_pending. cbn.
  by rewrite lookup_app_r, Nat.sub_diag.
Qed.

Lemma request_waiting (fn : list string) (element options : JsVal)
    (w : World) (r : nat) (v : JsVal) :
  well_formed w →
  method_of w (request_target w element) (requestFullscreen fn) = VFun r →
  host_fun w r (request_target w element) [options] = Returns v →
  (∀ a, v = VPromise a → settled w !! a = None) →
  let p := length (outcomes w) in
  waiting (eventNames fn EvChange) (OnFullScreenEntered fn p) p (awaitable_of v)
    (request_world fn element options w) ∧
  Forall (foreign_job p) (jobs (request_world fn element options w)).
Proof.
  intros Hwf Hm Hr Hfresh p.
  destruct (request_world_returns fn element options w r v Hm Hr)
    as (Ho & Hl & Hs & Hrest).
  by apply (bridge_waiting (eventNames fn EvChange) (OnFullScreenEntered fn p) v w).
Qed.

Lemma request_settled (fn : list string) (element options : JsVal)
    (w : World) (r a : nat) (s : Settled) (ts : list Task) :
  well_formed w →
  method_of w (request_target w element) (requestFullscreen fn) = VFun r →
  host_fun w r (request_target w element) [options] = Returns (VPromise a) →
  settled w !! a = Some s →
  outcome (length (outcomes w)) (run_tasks ts (request_world fn element options w))
    = Some (final_of s).
Proof.
  intros Hwf Hm Hr Hs.
  destruct (request_world_returns fn element options w r _ Hm Hr) as (Ho & Hl & _ & Hrest).
  cbn in Hrest. rewrite Hs in Hrest. destruct Hrest as [Hre Hj].
  pose proof (bridge_settled (eventNames fn EvChange)
                (OnFullScreenEntered fn (length (outcomes w))) a s w
                (request_world fn element options w) eq_refl Hwf Ho Hl Hre Hj) as Hst.
  destruct s as [|e]; cbn.
  - by apply (fulfilling_outcome (OnFullScreenEntered fn (length (outcomes w))) _ eq_refl).
  - by apply (rejecting_outcome (eventNames fn EvChange)
                (OnFullScreenEntered fn (length (outcomes w))) _ eq_refl).
Qed.

(** C1 as written fails: the host promise of [requestFullscreen] is
    fulfilled, no event is dispatched (no listener runs), and the promise
    returned by [request] is fulfilled all the same. *)
Lemma fulfilment_alone_resolves :
  ∃ p w1,
    Fullscrn.request (fullscrn standard_host) VUndefined VUndefined standard_host
      = Normal p w1 ∧
    outcome p w1 = Some Pending ∧
    outcome p (run_tasks [TSettle 0 SFulfilled] w1) = Some Fulfilled ∧
    fired (run_tasks [TSettle 0 SFulfilled] w1) = [].
Proof. eexists _, _. split; [reflexivity|]. by vm_compute. Qed.

(** C1, amended. The promise [request] returns is settled by what comes
    first.  A request operation that is missing or throws rejects it at
    once.  Otherwise it is pending when [request] returns and stays so
    while the host neither dispatches the change event nor settles the
    promise the operation returned; from there a change event fulfils
    it, the fulfilment of that host promise fulfils it too, and the
    rejection of that host promise rejects it with the same reason,
    provided no change event is dispatched before the checkpoint that
    runs the reaction.  A host promise that is settled already when it
    is returned counts as settled at once: the reaction runs when the
    calling script ends. *)
Theorem request_resolution (w0 w : World) (fn : list string) (element options : JsVal) :
  select_fn w0 = Some fn →
  well_formed w →
  ∃ p w1,
    Fullscrn.request (fullscrn w0) element options w = Normal p w1 ∧
    (∀ e, request_call fn element options w = Throws e →
          outcome p w1 = Some (Rejected e) ∧
          ∀ ts, outcome p (run_tasks ts w1) = Some (Rejected e)) ∧
    (∀ v, request_call fn element options w = Returns v →
       outcome p w1 = Some Pending ∧
       (∀ a s, v = VPromise a → settled w !! a = Some s →
               ∀ ts, outcome p (run_tasks ts w1) = Some (final_of s)) ∧
       ((∀ a, v = VPromise a → settled w !! a = None) →
        ∀ ts, Forall (quiet (eventNames fn EvChange) (awaitable_of v)) ts →
          outcome p (run_tasks ts w1) = Some Pending ∧
          (∀ ts', outcome p (run_tasks (ts ++ TDispatch (eventNames fn EvChange) :: ts') w1)
                    = Some Fulfilled) ∧
          (∀ a ts', v = VPromise a →
                    outcome p (run_tasks (ts ++ TSettle a SFulfilled :: ts') w1)
                      = Some Fulfilled) ∧
          (∀ a e ts2, v = VPromise a →
             Forall (λ t, t ≠ TDispatch (eventNames fn EvChange)) ts2 →
             outcome p (run_tasks (ts ++ TSettle a (SRejected e) :: ts2) w1)
               = Some (Rejected e) ∧
             ∀ ts', outcome p (run_tasks
                                 (ts ++ TSettle a (SRejected e) :: ts2 ++ TCheckpoint :: ts') w1)
                      = Some (Rejected e)))).
Proof.
  intros Hsel Hwf. rewrite (fullscrn_supported _ _ Hsel). cbn.
  rewrite request_eq. eexists _, _. split; [reflexivity|]. split.
  - intros e He. pose proof (request_call_throws fn element options w e He) as Hrej.
    split; [done|]. intros ts.
    by apply (keeps_final_run_tasks ts _ _ (Rejected e)).
  - intros v (r & Hm & Hr)%request_call_returns. split; [|split].
    + destruct (request_world_returns fn element options w r v Hm Hr) as (Ho & _).
      unfold outcome. rewrite Ho. by rewrite lookup_app_r, Nat.sub_diag.
    + intros a s -> Hs ts. by apply (request_settled fn element options w r a s ts).
    + intros Hfresh ts Hq.
      pose proof (request_waiting fn element options w r v Hwf Hm Hr Hfresh) as Hcalm.
      destruct (calm_outcomes (eventNames fn EvChange)
                  (OnFullScreenEntered fn (length (outcomes w)))
                  (length (outcomes w)) (awaitable_of v) eq_refl ts _ Hcalm Hq)
        as (H1 & H2 & H3 & H4).
      split; [exact H1|]. split; [exact H2|]. split.
      * intros a ts' ->. by apply H3.
      * intros a e ts2 ->. by apply H4.
Qed.

Lemma well_formed_initial (w : World) :
  listeners w = [] → reactions w = [] → jobs w = [] → well_formed w.
Proof.
  intros Hl Hr Hj. unfold well_formed, bounded. rewrite Hl, Hr, Hj.
  repeat split; intros; by match goal with H : _ ∈ [] |- _ => apply elem_of_nil in H end.
Qed.

Lemma request_resolution_witness :
  (∃ p w1,
     Fullscrn.request (fullscrn standard_host) VUndefined VUndefined standard_host
       = Normal p w1 ∧
     outcome p (run_tasks [TDispatch "fullscreenerror"; TCheckpoint] w1) = Some Pending ∧
     outcome p (run_tasks [TDispatch "fullscreenchange"] w1) = Some Fulfilled ∧
     outcome p (run_tasks [TSettle 0 SFulfilled] w1) = Some Fulfilled ∧
     outcome p (run_tasks [TSettle 0 (SRejected (VStr "denied")); TCheckpoint;
                           TDispatch "fullscreenchange"] w1)
       = Some (Rejected (VStr "denied"))) ∧
  (∃ p w1,
     Fullscrn.request (fullscrn throwing_host) VUndefined VUndefined throwing_host
       = Normal p w1 ∧
     outcome p (run_tasks [TDispatch "fullscreenchange"] w1)
       = Some (Rejected (VStr "denied"))).
Proof.
  split.
  - destruct (request_resolution standard_host standard_host standard_fn
                VUndefined VUndefined eq_refl)
      as (p & w1 & Hreq & _ & H).
    { apply well_formed_initial; reflexivity. }
    exists p, w1. split; [exact Hreq|].
    destruct (H (VPromise 0) eq_refl) as (_ & _ & Hw).
    assert (Hfresh : ∀ a, VPromise 0 = VPromise a → settled standard_host !! a = None).
    { intros a _. reflexivity. }
    destruct (Hw Hfresh [TDispatch "fullscreenerror"; TCheckpoint]) as (Hquiet & _);
      [repeat constructor|].
    destruct (Hw Hfresh [] (List.Forall_nil _)) as (_ & Hchange & Hfulfil & Hreject).
    split; [exact Hquiet|].
    split; [exact (Hchange [])|].
    split; [exact (Hfulfil 0 [] eq_refl)|].
    destruct (Hreject 0 (VStr "denied") [] eq_refl (List.Forall_nil _)) as [_ Hrej].
    exact (Hrej [TDispatch "fullscreenchange"]).
  - destruct (request_resolution throwing_host throwing_host standard_fn
                VUndefined VUndefined eq_refl)
      as (p & w1 & Hreq & H & _).
    { apply well_formed_initial; reflexivity. }
    exists p, w1. split; [exact Hreq|].
    exact (proj2 (H (VStr "denied") eq_refl) [TDispatch "fullscreenchange"]).
Defined.

(** C2 as written fails: the change event fires first and fulfils the
    promise of [request]; the rejection of the host promise that comes
    after it is dropped. *)
Lemma rejection_after_change_is_dropped :
  ∃ p w1,
    Fullscrn.request (fullscrn standard_host) VUndefined VUndefined standard_host
      = Normal p w1 ∧
    host_fun standard_host 0 (VObj 1) [VUndefined] = Returns (VPromise 0) ∧
    outcome p (run_tasks [TDispatch "fullscreenchange";
                          TSettle 0 (SRejected (VStr "denied"))] w1)
      = Some Fulfilled.
Proof. eexists _, _. split; [reflexivity|]. by vm_compute. Qed.

(** The same happens when the host rejects its promise and fires the
    change event in one task: [reject] is only called by the reaction of
    [catch], at the next checkpoint, and by then the listener has
    fulfilled the promise.  With a checkpoint in between the rejection
    wins. *)
Example rejection_and_change_in_one_task :
  ∃ p w1,
    Fullscrn.request (fullscrn standard_host) VUndefined VUndefined standard_host
      = Normal p w1 ∧
    outcome p (run_tasks [TSettle 0 (SRejected (VStr "denied"));
                          TDispatch "fullscreenchange"] w1)
      = Some Fulfilled ∧
    outcome p (run_tasks [TSettle 0 (SRejected (VStr "denied")); TCheckpoint;
                          TDispatch "fullscreenchange"] w1)
      = Some (Rejected (VStr "denied")).
Proof. eexists _, _. split; [reflexivity|]. by vm_compute. Qed.

(** C2, amended. When the promise returned by the request operation
    rejects with [e] while the promise of [request] is still pending,
    and no change event is dispatched before the checkpoint that runs
    the reaction to it, the promise of [request] is rejected with [e]
    itself, for good.  (A host promise that is rejected already when it
    is returned has its reaction run when the calling script ends.) *)
Theorem request_rejection_propagates (w0 w : World) (fn : list string)
    (element options : JsVal) (a : nat) (e : JsVal) :
  select_fn w0 = Some fn →
  well_formed w →
  request_call fn element options w = Returns (VPromise a) →
  ∃ p w1,
    Fullscrn.request (fullscrn w0) element options w = Normal p w1 ∧
    (settled w !! a = Some (SRejected e) →
       ∀ ts, outcome p (run_tasks ts w1) = Some (Rejected e)) ∧
    (settled w !! a = None →
       ∀ ts ts2, Forall (quiet (eventNames fn EvChange) (Some a)) ts →
                 Forall (λ t, t ≠ TDispatch (eventNames fn EvChange)) ts2 →
         outcome p (run_tasks (ts ++ TSettle a (SRejected e) :: ts2) w1)
           = Some (Rejected e) ∧
         ∀ ts', outcome p (run_tasks
                             (ts ++ TSettle a (SRejected e) :: ts2 ++ TCheckpoint :: ts') w1)
                  = Some (Rejected e)).
Proof.
  intros Hsel Hwf (r & Hm & Hr)%request_call_returns.
  rewrite (fullscrn_supported _ _ Hsel). cbn.
  rewrite request_eq. eexists _, _. split; [reflexivity|]. split.
  - intros Hs ts.
    by rewrite (request_settled fn element options w r a _ ts Hwf Hm Hr Hs).
  - intros Hs ts ts2 Hq Hts2.
    assert (Hcalm : waiting (eventNames fn EvChange)
                      (OnFullScreenEntered fn (length (outcomes w)))
                      (length (outcomes w)) (Some a)
                      (request_world fn element options w) ∧
                    Forall (foreign_job (length (outcomes w)))
                      (jobs (request_world fn element options w))).
    { apply (request_waiting fn element options w r (VPromise a)); try done.
      by intros a' [= <-]. }
    destruct (calm_outcomes (eventNames fn EvChange)
                (OnFullScreenEntered fn (length (outcomes w)))
                (length (outcomes w)) (Some a) eq_refl ts _ Hcalm Hq)
      as (_ & _ & _ & H4).
    by apply H4.
Qed.

Lemma request_rejection_propagates_witness :
  ∃ p w1,
    Fullscrn.request (fullscrn standard_host) (VObj 4) VUndefined standard_host
      = Normal p w1 ∧
    outcome p (run_tasks [TDispatch "fullscreenerror";
                          TSettle 0 (SRejected (VStr "denied"));
                          TSetProp "fullscreenEnabled" None; TCheckpoint;
                          TDispatch "fullscreenchange"] w1)
      = Some (Rejected (VStr "denied")).
Proof.
  destruct (request_rejection_propagates standard_host standard_host standard_fn
              (VObj 4) VUndefined 0 (VStr "denied") eq_refl)
    as (p & w1 & Hreq & _ & H).
  - apply well_formed_initial; reflexivity.
  - reflexivity.
  - exists p, w1. split; [exact Hreq|].
    destruct (H eq_refl [TDispatch "fullscreenerror"] [TSetProp "fullscreenEnabled" None])
      as [_ Hrej].
    + repeat constructor.
    + repeat constructor. discriminate.
    + exact (Hrej [TDispatch "fullscreenchange"]).
Defined.

(** ** Well-formed worlds

    The hypothesis [well_formed] of the two theorems above holds of
    every world the facade and the host can produce from a fresh one. *)

Lemma job_bounded_mono (n m : nat) (j : Job) :
  (n ≤ m)%nat → job_bounded n j → job_bounded m j.
Proof.
  intros Hle. destruct j as [s c q|e q]; cbn; [|lia].
  intros [Hlt Hq]. split; [lia|]. intros q' Hc. specialize (Hq q' Hc). lia.
Qed.

Lemma bounded_mono (n m : nat) (w : World) : (n ≤ m)%nat → bounded n w → bounded m w.
Proof.
  intros Hle (Hl & Hr & Hj). split; [|split].
  - intros l q Hin Hc. specialize (Hl l q Hin Hc). lia.
  - intros r Hin. destruct (Hr r Hin) as [Hlt Hq]. split; [lia|].
    intros q Hc. specialize (Hq q Hc). lia.
  - intros j Hin. apply (job_bounded_mono n); [done|]. by apply Hj.
Qed.

Lemma bounded_same (n : nat) (w w' : World) :
  (∀ l, l ∈ listeners w' → l ∈ listeners w) →
  (∀ r, r ∈ reactions w' → r ∈ reactions w) →
  (∀ j, j ∈ jobs w' → j ∈ jobs w) →
  bounded n w → bounded n w'.
Proof.
  intros Hl Hr Hj (Bl & Br & Bj). split; [|split].
  - intros l q Hin. by apply Bl, Hl.
  - intros r Hin. by apply Br, Hr.
  - intros j Hin. by apply Bj, Hj.
Qed.

Lemma bounded_settle_outcome (n q : nat) (s : PState) (w : World) :
  bounded n w → bounded n (settle_outcome q s w).
Proof.
  destruct (settle_outcome_fields q s w) as (_ & Hl & _ & Hr & Hj & _).
  apply bounded_same; by rewrite ?Hl, ?Hr, ?Hj.
Qed.

Lemma bounded_addEventListener (n : nat) (type : string) (cb : Callback) (w : World) :
  (∀ q, closure_of cb = Some q → q < n) →
  bounded n w → bounded n (world_of (addEventListener type cb w)).
Proof.
  intros Hcb (Bl & Br & Bj). split; [|by split].
  cbn. intros l q Hin Hc. case_decide; [by eapply Bl|].
  apply elem_of_app in Hin as [Hin| ->%list_elem_of_singleton]; [by eapply Bl|].
  by apply Hcb.
Qed.

Lemma bounded_then_catch (n a p : nat) (cb : Callback) (w : World) :
  p < n → (∀ q, closure_of cb = Some q → q < n) →
  bounded n w → bounded n (world_of (then_catch a cb p w)).
Proof.
  intros Hp Hcb (Bl & Br & Bj). unfold then_catch.
  destruct (settled w !! a); cbn; (split; [done|split]); try done.
  - intros j [Hin| ->%list_elem_of_singleton]%elem_of_app; [by apply Bj|done].
  - intros r [Hin| ->%list_elem_of_singleton]%elem_of_app; [by apply Br|done].
Qed.

Lemma length_outcomes_settle_outcome (q : nat) (s : PState) (w : World) :
  length (outcomes (settle_outcome q s w)) = length (outcomes w).
Proof.
  unfold settle_outcome. destruct (outcomes w !! q) as [[]|]; cbn; try done.
  apply length_insert.
Qed.

Lemma length_outcomes_invoked (cb : Callback) (w : World) :
  length (outcomes (invoked cb w)) = length (outcomes w).
Proof.
  rewrite invoked_outcomes. destruct (closure_of cb); [|done].
  apply length_outcomes_settle_outcome.
Qed.

Lemma length_outcomes_run_job (j : Job) (w : World) :
  length (outcomes (run_job j w)) = length (outcomes w).
Proof.
  rewrite run_job_eq. destruct j as [[|e] cb p|e p]; cbn; try done.
  - apply length_outcomes_invoked.
  - apply length_outcomes_settle_outcome.
Qed.

Lemma length_outcomes_drain (w : World) :
  length (outcomes (drain w)) = length (outcomes w).
Proof.
  apply (drain_ind (λ w', length (outcomes w') = length (outcomes w))); [|done].
  intros w' j rest _ <-. by rewrite length_outcomes_run_job.
Qed.

Lemma bounded_invoked (n : nat) (cb : Callback) (w : World) :
  bounded n w → bounded n (invoked cb w).
Proof.
  destruct (invoked_fields cb w) as (_ & _ & Hr & Hj & _).
  apply bounded_same; rewrite ?Hr, ?Hj; try done.
  apply invoked_listeners.
Qed.

Lemma bounded_run_job (n : nat) (j : Job) (w : World) :
  job_bounded n j → bounded n w → bounded n (run_job j w).
Proof.
  rewrite run_job_eq. destruct j as [[|e] cb p|e p]; cbn.
  - intros _. apply bounded_invoked.
  - intros [Hp _] (Bl & Br & Bj). split; [done|split; [done|]]. cbn.
    intros j [Hin| ->%list_elem_of_singleton]%elem_of_app; [by apply Bj|done].
  - intros _. apply bounded_settle_outcome.
Qed.

Lemma bounded_drain (n : nat) (w : World) : bounded n w → bounded n (drain w).
Proof.
  intros Hw. apply (drain_ind (bounded n)); [|done].
  intros w' j rest Hj (Bl & Br & Bj). apply bounded_run_job.
  - apply Bj. rewrite Hj. by left.
  - split; [done|split; [done|]]. cbn. intros j' Hin. apply Bj. rewrite Hj. by right.
Qed.

Lemma well_formed_drain (w : World) : well_formed w → well_formed (drain w).
Proof. unfold well_formed. rewrite length_outcomes_drain. apply bounded_drain. Qed.

Lemma bounded_dispatch_loop (n : nat) (snapshot : list Listener) (w : World) :
  bounded n w → bounded n (dispatch_loop snapshot w).
Proof.
  revert w. induction snapshot as [|l rest IH]; intros w Hw; cbn; [done|].
  apply IH. destruct (decide (l ∈ listeners w)); [|done].
  apply bounded_drain. fold (invoked l.2 (set_fired (λ f, f ++ [l.2]) w)).
  by apply bounded_invoked.
Qed.

Lemma length_outcomes_dispatch_loop (snapshot : list Listener) (w : World) :
  length (outcomes (dispatch_loop snapshot w)) = length (outcomes w).
Proof.
  revert w. induction snapshot as [|l rest IH]; intros w; cbn; [done|].
  rewrite IH. destruct (decide (l ∈ listeners w)); [|done].
  rewrite length_outcomes_drain.
  fold (invoked l.2 (set_fired (λ f, f ++ [l.2]) w)).
  by rewrite length_outcomes_invoked.
Qed.

Lemma well_formed_step (t : Task) (w : World) : well_formed w → well_formed (step t w).
Proof.
  intros Hw. destruct t as [type|a s|k [v|]|]; try done.
  - unfold well_formed, step, dispatch. rewrite length_outcomes_dispatch_loop.
    by apply bounded_dispatch_loop.
  - unfold step, settle. destruct (settled w !! a); [done|].
    destruct Hw as (Bl & Br & Bj). unfold well_formed. cbn. split; [done|split].
    + intros r [_ Hin]%list_elem_of_filter. by apply Br.
    + intros j [Hin|(r & -> & [_ Hin]%list_elem_of_filter)%list_elem_of_fmap]%elem_of_app;
        [by apply Bj|].
      by apply Br.
  - by apply well_formed_drain.
Qed.

Lemma well_formed_steps (ts : list Task) (w : World) :
  well_formed w → well_formed (steps ts w).
Proof.
  unfold steps. revert w. induction ts as [|t ts IH]; intros w Hw; cbn; [done|].
  by apply IH, well_formed_step.
Qed.

Lemma well_formed_run_task (t : Task) (w : World) :
  well_formed w → well_formed (run_task t w).
Proof. intros Hw. by apply well_formed_drain, well_formed_step. Qed.

Lemma well_formed_run_tasks (ts : list Task) (w : World) :
  well_formed w → well_formed (run_tasks ts w).
Proof. intros Hw. by apply well_formed_drain, well_formed_steps, well_formed_drain. Qed.

Lemma bounded_set_outcomes (n : nat) (f : list PState → list PState) (w : World) :
  bounded n w → bounded n (set_outcomes f w).
Proof. by apply bounded_same. Qed.

Lemma bounded_set_calls (n : nat) (f : list HostCall → list HostCall) (w : World) :
  bounded n w → bounded n (set_calls f w).
Proof. by apply bounded_same. Qed.

Lemma bounded_onchange (n : nat) (fn : list string) (cb : Callback) (w : World) :
  (∀ q, closure_of cb = Some q → q < n) →
  bounded n w → bounded n (world_of (onchange fn cb w)).
Proof. apply bounded_addEventListener. Qed.

Lemma well_formed_request (fn : list string) (element options : JsVal) (w : World) :
  well_formed w → well_formed (request_world fn element options w).
Proof.
  unfold well_formed. intros Hw.
  set (p := length (outcomes w)).
  assert (Hcb : ∀ q, closure_of (OnFullScreenEntered fn p) = Some q → q < S p).
  { intros q [= <-]. lia. }
  assert (H1 : bounded (S p) (world_of (onchange fn (OnFullScreenEntered fn p)
                                 (set_outcomes (λ os, os ++ [Pending]) w)))).
  { apply bounded_onchange; [done|]. apply bounded_set_outcomes.
    apply bounded_mono with p; [lia|done]. }
  assert (Hlen : length (outcomes (request_world fn element options w)) = S p).
  { unfold request_world.
    destruct (method_of w (request_target w element) (requestFullscreen fn));
      rewrite ?length_outcomes_settle_outcome; cbn;
      try (rewrite length_app; cbn; fold p; lia).
    destruct (host_fun w r (request_target w element) [options]) as [v|e];
      rewrite ?length_outcomes_settle_outcome; cbn;
      try (rewrite length_app; cbn; fold p; lia).
    destruct v; cbn; try (rewrite length_app; cbn; fold p; lia).
    unfold then_catch. cbn.
    destruct (settled w !! a); cbn; rewrite length_app; cbn; fold p; lia. }
  rewrite Hlen. unfold request_world. fold p.
  destruct (method_of w (request_target w element) (requestFullscreen fn));
    try by apply bounded_settle_outcome.
  destruct (host_fun w r (request_target w element) [options]) as [v|e].
  - destruct v; try by apply bounded_set_calls.
    apply bounded_then_catch; [lia|done|by apply bounded_set_calls].
  - by apply bounded_settle_outcome, bounded_set_calls.
Qed.

Lemma exit_eq (fn : list string) (w : World) :
  exit fn w = Normal (length (outcomes w)) (exit_world fn w).
Proof.
  unfold exit, exit_world, new_Promise.
  change (isFullscreen fn (set_outcomes (λ os, os ++ [Pending]) w))
    with (isFullscreen fn w).
  destruct (negb (isFullscreen fn w)); [reflexivity|].
  unfold call_method, bind. cbn.
  set (w1 := set_listeners _ _).
  change (doc_get w1 (exitFullscreen fn)) with (doc_get w (exitFullscreen fn)).
  unfold call. destruct (doc_get w (exitFullscreen fn)); try reflexivity.
  change (host_fun w1 r) with (host_fun w r).
  destruct (host_fun w r VDocument []) as [v|e]; [|reflexivity].
  destruct v; try reflexivity.
  unfold then_catch. cbn. by destruct (settled w !! a).
Qed.

Lemma well_formed_exit (fn : list string) (w : World) :
  well_formed w → well_formed (exit_world fn w).
Proof.
  unfold well_formed. intros Hw.
  set (p := length (outcomes w)).
  assert (Hcb : ∀ q, closure_of (OnFullScreenExit fn p) = Some q → q < S p).
  { intros q [= <-]. lia. }
  assert (H0 : bounded (S p) (set_outcomes (λ os, os ++ [Pending]) w)).
  { apply bounded_set_outcomes. apply bounded_mono with p; [lia|done]. }
  assert (H1 : bounded (S p) (world_of (onchange fn (OnFullScreenExit fn p)
                                 (set_outcomes (λ os, os ++ [Pending]) w)))).
  { by apply bounded_onchange. }
  assert (Hlen : length (outcomes (exit_world fn w)) = S p).
  { unfold exit_world.
    destruct (negb (isFullscreen fn w));
      rewrite ?length_outcomes_settle_outcome; cbn;
      try (rewrite length_app; cbn; fold p; lia).
    destruct (doc_get w (exitFullscreen fn));
      rewrite ?length_outcomes_settle_outcome; cbn;
      try (rewrite length_app; cbn; fold p; lia).
    destruct (host_fun w r VDocument []) as [v|e];
      rewrite ?length_outcomes_settle_outcome; cbn;
      try (rewrite length_app; cbn; fold p; lia).
    destruct v; cbn; try (rewrite length_app; cbn; fold p; lia).
    unfold then_catch. cbn.
    destruct (settled w !! a); cbn; rewrite length_app; cbn; fold p; lia. }
  rewrite Hlen. unfold exit_world. fold p.
  destruct (negb (isFullscreen fn w)); [by apply bounded_settle_outcome|].
  destruct (doc_get w (exitFullscreen fn)); try by apply bounded_settle_outcome.
  destruct (host_fun w r VDocument []) as [v|e].
  - destruct v; try by apply bounded_set_calls.
    apply bounded_then_catch; [lia|done|by apply bounded_set_calls].
  - by apply bounded_settle_outcome, bounded_set_calls.
Qed.

(** Subscribing a function of the application, and unsubscribing. *)
Lemma well_formed_onchange (fn : list string) (n : nat) (w : World) :
  well_formed w → well_formed (world_of (onchange fn (UserCb n) w)).
Proof. unfold well_formed. cbn. by apply bounded_onchange. Qed.

Lemma well_formed_onerror (fn : list string) (n : nat) (w : World) :
  well_formed w → well_formed (world_of (onerror fn (UserCb n) w)).
Proof. unfold well_formed. cbn. by apply bounded_addEventListener. Qed.

Lemma well_formed_off (fn : list string) (event : EventName) (cb : Callback) (w : World) :
  well_formed w → well_formed (world_of (_off fn event cb w)).
Proof.
  unfold well_formed, _off.
  destruct (truthy (VStr (eventNames fn event))); [|done]. cbn.
  apply bounded_same; try done. by intros l [_ ?]%list_elem_of_filter.
Qed.

(** * Further properties of the facade *)

(** ** exit while the host is full-screen *)

Lemma exit_world_returns (fn : list string) (w : World) (r : nat) (v : JsVal) :
  isFullscreen fn w = true →
  doc_get w (exitFullscreen fn) = VFun r →
  host_fun w r VDocument [] = Returns v →
  let p := length (outcomes w) in
  let cb := OnFullScreenExit fn p in
  let w' := exit_world fn w in
  outcomes w' = outcomes w ++ [Pending] ∧
  listeners w' = (if decide ((eventNames fn EvChange, cb) ∈ listeners w)
                  then listeners w else listeners w ++ [(eventNames fn EvChange, cb)]) ∧
  settled w' = settled w ∧
  calls w' = calls w ++ [mkCall r VDocument []] ∧
  match awaitable_of v with
  | Some a =>
      match settled w !! a with
      | Some s => reactions w' = reactions w ∧ jobs w' = jobs w ++ [JThen s cb p]
      | None => reactions w' = reactions w ++ [mkReaction a cb p] ∧ jobs w' = jobs w
      end
  | None => reactions w' = reactions w ∧ jobs w' = jobs w
  end.
Proof.
  intros Hfs Hm Hr p cb w'. subst w'. unfold exit_world. rewrite Hfs, Hm, Hr. cbn.
  destruct v; cbn; try done.
  unfold then_catch. cbn. by destruct (settled w !! a).
Qed.

Lemma exit_call_returns (fn : list string) (w : World) (v : JsVal) :
  exit_call fn w = Returns v →
  ∃ r, doc_get w (exitFullscreen fn) = VFun r ∧ host_fun w r VDocument [] = Returns v.
Proof.
  unfold exit_call. destruct (doc_get w (exitFullscreen fn)); try discriminate.
  intros H. by exists r.
Qed.

Lemma exit_call_throws (fn : list string) (w : World) (e : JsVal) :
  isFullscreen fn w = true →
  exit_call fn w = Throws e →
  outcome (length (outcomes w)) (exit_world fn w) = Some (Rejected e).
Proof.
  intros Hfs. unfold exit_call, exit_world, outcome. rewrite Hfs. cbn.
  destruct (doc_get w (exitFullscreen fn));
    try (intros [= <-]; apply outcomes_settle_outcome_pending; cbn;
         by rewrite lookup_app_r, Nat.sub_diag).
  intros ->. apply outcomes_settle_outcome_pending. cbn.
  by rewrite lookup_app_r, Nat.sub_diag.
Qed.

Lemma exit_settled (fn : list string) (w : World) (r a : nat) (s : Settled)
    (ts : list Task) :
  well_formed w →
  isFullscreen fn w = true →
  doc_get w (exitFullscreen fn) = VFun r →
  host_fun w r VDocument [] = Returns (VPromise a) →
  settled w !! a = Some s →
  outcome (length (outcomes w)) (run_tasks ts (exit_world fn w)) = Some (final_of s).
Proof.
  intros Hwf Hfs Hm Hr Hs.
  destruct (exit_world_returns fn w r _ Hfs Hm Hr) as (Ho & Hl & _ & _ & Hrest).
  cbn in Hrest. rewrite Hs in Hrest. destruct Hrest as [Hre Hj].
  pose proof (bridge_settled (eventNames fn EvChange)
                (OnFullScreenExit fn (length (outcomes w))) a s w
                (exit_world fn w) eq_refl Hwf Ho Hl Hre Hj) as Hst.
  destruct s as [|e]; cbn.
  - by apply (fulfilling_outcome (OnFullScreenExit fn (length (outcomes w))) _ eq_refl).
  - by apply (rejecting_outcome (eventNames fn EvChange)
                (OnFullScreenExit fn (length (outcomes w))) _ eq_refl).
Qed.

(** X1. While the host is full-screen, the promise of [exit] is settled
    like that of [request].  An exit operation that is missing or throws
    rejects it at once.  Otherwise it is pending when [exit] returns and
    stays so while the host neither dispatches the change event nor
    settles the promise the operation returned; from there a change
    event fulfils it, so does the fulfilment of that host promise, and
    the rejection of that host promise rejects it with the same reason,
    provided no change event is dispatched before the checkpoint that
    runs the reaction.  A host promise that is settled already when it
    is returned has its reaction run when the calling script ends. *)
Theorem exit_resolution (w0 w : World) (fn : list string) :
  select_fn w0 = Some fn →
  well_formed w →
  Fullscrn.isFullscreen (fullscrn w0) w = true →
  ∃ p w1,
    Fullscrn.exit (fullscrn w0) w = Normal p w1 ∧
    (∀ e, exit_call fn w = Throws e →
          outcome p w1 = Some (Rejected e) ∧
          ∀ ts, outcome p (run_tasks ts w1) = Some (Rejected e)) ∧
    (∀ v, exit_call fn w = Returns v →
       outcome p w1 = Some Pending ∧
       (∀ a s, v = VPromise a → settled w !! a = Some s →
               ∀ ts, outcome p (run_tasks ts w1) = Some (final_of s)) ∧
       ((∀ a, v = VPromise a → settled w !! a = None) →
        ∀ ts, Forall (quiet (eventNames fn EvChange) (awaitable_of v)) ts →
          outcome p (run_tasks ts w1) = Some Pending ∧
          (∀ ts', outcome p (run_tasks (ts ++ TDispatch (eventNames fn EvChange) :: ts') w1)
                    = Some Fulfilled) ∧
          (∀ a ts', v = VPromise a →
                    outcome p (run_tasks (ts ++ TSettle a SFulfilled :: ts') w1)
                      = Some Fulfilled) ∧
          (∀ a e ts2, v = VPromise a →
             Forall (λ t, t ≠ TDispatch (eventNames fn EvChange)) ts2 →
             outcome p (run_tasks (ts ++ TSettle a (SRejected e) :: ts2) w1)
               = Some (Rejected e) ∧
             ∀ ts', outcome p (run_tasks
                                 (ts ++ TSettle a (SRejected e) :: ts2 ++ TCheckpoint :: ts') w1)
                      = Some (Rejected e)))).
Proof.
  intros Hsel Hwf. rewrite (fullscrn_supported _ _ Hsel). cbn. intros Hfs.
  rewrite exit_eq. eexists _, _. split; [reflexivity|]. split.
  - intros e He. pose proof (exit_call_throws fn w e Hfs He) as Hrej.
    split; [done|]. intros ts.
    by apply (keeps_final_run_tasks ts _ _ (Rejected e)).
  - intros v (r & Hm & Hr)%exit_call_returns.
    destruct (exit_world_returns fn w r v Hfs Hm Hr) as (Ho & Hl & Hs & _ & Hrest).
    split; [|split].
    + unfold outcome. rewrite Ho. by rewrite lookup_app_r, Nat.sub_diag.
    + intros a s -> Hst ts. by apply (exit_settled fn w r a s ts).
    + intros Hfresh ts Hq.
      pose proof (bridge_waiting (eventNames fn EvChange)
                    (OnFullScreenExit fn (length (outcomes w))) v w (exit_world fn w)
                    eq_refl Hwf Hfresh Ho Hl Hs Hrest) as Hcalm.
      destruct (calm_outcomes (eventNames fn EvChange)
                  (OnFullScreenExit fn (length (outcomes w)))
                  (length (outcomes w)) (awaitable_of v) eq_refl ts _ Hcalm Hq)
        as (H1 & H2 & H3 & H4).
      split; [exact H1|]. split; [exact H2|]. split.
      * intros a ts' ->. by apply H3.
      * intros a e ts2 ->. by apply H4.
Qed.

Lemma exit_resolution_witness :
  (∃ p w1,
     Fullscrn.exit (fullscrn standard_host) fullscreen_host = Normal p w1 ∧
     outcome p (run_tasks [TSetProp "fullscreenElement" (Some VNull)] w1) = Some Pending ∧
     outcome p (run_tasks [TDispatch "fullscreenchange"] w1) = Some Fulfilled ∧
     outcome p (run_tasks [TSettle 1 SFulfilled] w1) = Some Fulfilled ∧
     outcome p (run_tasks [TSettle 1 (SRejected (VStr "denied")); TCheckpoint;
                           TDispatch "fullscreenchange"] w1)
       = Some (Rejected (VStr "denied"))) ∧
  (∃ p w1,
     Fullscrn.exit (fullscrn stuck_host) stuck_host = Normal p w1 ∧
     outcome p w1 = Some (Rejected (VStr "busy"))).
Proof.
  split.
  - destruct (exit_resolution standard_host fullscreen_host standard_fn eq_refl)
      as (p & w1 & Hexit & _ & H).
    { apply well_formed_initial; reflexivity. }
    { reflexivity. }
    exists p, w1. split; [exact Hexit|].
    destruct (H (VPromise 1) eq_refl) as (_ & _ & Hw).
    assert (Hfresh : ∀ a, VPromise 1 = VPromise a → settled fullscreen_host !! a = None).
    { intros a _. reflexivity. }
    destruct (Hw Hfresh [TSetProp "fullscreenElement" (Some VNull)]) as (Hquiet & _);
      [repeat constructor|].
    destruct (Hw Hfresh [] (List.Forall_nil _)) as (_ & Hchange & Hfulfil & Hreject).
    split; [exact Hquiet|].
    split; [exact (Hchange [])|].
    split; [exact (Hfulfil 1 [] eq_refl)|].
    destruct (Hreject 1 (VStr "denied") [] eq_refl (List.Forall_nil _)) as [_ Hrej].
    exact (Hrej [TDispatch "fullscreenchange"]).
  - destruct (exit_resolution stuck_host stuck_host standard_fn eq_refl)
      as (p & w1 & Hexit & H & _).
    { apply well_formed_initial; reflexivity. }
    { reflexivity. }
    exists p, w1. split; [exact Hexit|].
    exact (proj1 (H (VStr "busy") eq_refl)).
Defined.

Lemma request_world_calls (fn : list string) (element options : JsVal) (w : World) :
  calls (request_world fn element options w) = calls w ++
    match method_of w (request_target w element) (requestFullscreen fn) with
    | VFun r => [mkCall r (request_target w element) [options]]
    | _ => []
    end.
Proof.
  unfold request_world.
  destruct (method_of w (request_target w element) (requestFullscreen fn));
    try (rewrite calls_settle_outcome; cbn; by rewrite app_nil_r).
  destruct (host_fun w r (request_target w element) [options]) as [v|e].
  - destruct v; try reflexivity.
    unfold then_catch. cbn. by destruct (settled w !! a).
  - by rewrite calls_settle_outcome.
Qed.

Lemma exit_world_calls (fn : list string) (w : World) :
  isFullscreen fn w = true →
  calls (exit_world fn w) = calls w ++
    match doc_get w (exitFullscreen fn) with
    | VFun r => [mkCall r VDocument []]
    | _ => []
    end.
Proof.
  intros Hfs. unfold exit_world. rewrite Hfs. cbn.
  destruct (doc_get w (exitFullscreen fn));
    try (rewrite calls_settle_outcome; cbn; by rewrite app_nil_r).
  destruct (host_fun w r VDocument []) as [v|e].
  - destruct v; try reflexivity.
    unfold then_catch. cbn. by destruct (settled w !! a).
  - by rewrite calls_settle_outcome.
Qed.

(** X2. While the host is full-screen, [exit] makes exactly one host
    call, if any: the function stored under the exit name of the
    document, with the document as receiver and no argument; when that
    property is not a function nothing is called and the promise is
    rejected with a TypeError. *)
Theorem exit_calls_exit_operation (w0 w : World) (fn : list string) :
  select_fn w0 = Some fn →
  Fullscrn.isFullscreen (fullscrn w0) w = true →
  ∃ p w1,
    Fullscrn.exit (fullscrn w0) w = Normal p w1 ∧
    match doc_get w (exitFullscreen fn) with
    | VFun r => calls w1 = calls w ++ [mkCall r VDocument []]
    | _ => calls w1 = calls w ∧ outcome p w1 = Some (Rejected (VError "TypeError"))
    end.
Proof.
  intros Hsel. rewrite (fullscrn_supported _ _ Hsel). cbn. intros Hfs.
  rewrite exit_eq. eexists _, _. split; [reflexivity|].
  unfold exit_world. rewrite Hfs. cbn.
  assert (Hp : ∀ e (w' : World),
             outcomes w' = outcomes w ++ [Pending] →
             outcome (length (outcomes w))
               (settle_outcome (length (outcomes w)) (Rejected e) w') = Some (Rejected e)).
  { intros e w' Ho. apply outcomes_settle_outcome_pending.
    rewrite Ho. by rewrite lookup_app_r, Nat.sub_diag. }
  destruct (doc_get w (exitFullscreen fn));
    try (rewrite calls_settle_outcome; split; [reflexivity|by apply Hp]).
  destruct (host_fun w r VDocument []) as [v|e].
  - destruct v; try reflexivity.
    unfold then_catch. cbn. by destruct (settled w !! a).
  - by rewrite calls_settle_outcome.
Qed.

Lemma exit_calls_exit_operation_witness :
  ∃ p w1,
    Fullscrn.exit (fullscrn standard_host) fullscreen_host = Normal p w1 ∧
    calls w1 = [mkCall 1 VDocument []].
Proof.
  exact (exit_calls_exit_operation standard_host fullscreen_host standard_fn
           eq_refl eq_refl).
Defined.

(** X3. When the exit operation throws, [exit] still completes
    normally: the promise it returns is rejected with the thrown value
    and stays so. *)
Theorem exit_sync_throw (w0 w : World) (fn : list string) (r : nat) (e : JsVal) :
  select_fn w0 = Some fn →
  Fullscrn.isFullscreen (fullscrn w0) w = true →
  doc_get w (exitFullscreen fn) = VFun r →
  host_fun w r VDocument [] = Throws e →
  ∃ p w1,
    Fullscrn.exit (fullscrn w0) w = Normal p w1 ∧
    outcome p w1 = Some (Rejected e) ∧
    ∀ ts, outcome p (run_tasks ts w1) = Some (Rejected e).
Proof.
  intros Hsel. rewrite (fullscrn_supported _ _ Hsel). cbn. intros Hfs Hm Hthrow.
  rewrite exit_eq. eexists _, _. split; [reflexivity|].
  assert (Hrej : outcome (length (outcomes w)) (exit_world fn w) = Some (Rejected e)).
  { unfold exit_world. rewrite Hfs, Hm, Hthrow. cbn. unfold outcome.
    apply outcomes_settle_outcome_pending. cbn.
    by rewrite lookup_app_r, Nat.sub_diag. }
  split; [done|]. intros ts.
  by apply (keeps_final_run_tasks ts _ _ _ Hrej).
Qed.

Lemma exit_sync_throw_witness :
  ∃ p w1,
    Fullscrn.exit (fullscrn stuck_host) stuck_host = Normal p w1 ∧
    outcome p w1 = Some (Rejected (VStr "busy")) ∧
    ∀ ts, outcome p (run_tasks ts w1) = Some (Rejected (VStr "busy")).
Proof.
  exact (exit_sync_throw stuck_host stuck_host standard_fn 1 (VStr "busy")
           eq_refl eq_refl eq_refl eq_refl).
Defined.

(** ** Subscriptions, continued *)

Lemma set_listeners_id (w : World) : set_listeners (λ _, listeners w) w = w.
Proof. by destruct w. Qed.

Lemma filter_ne_fresh {A} `{EqDecision A} (x : A) (l : list A) :
  x ∉ l → filter (λ y, y ≠ x) l = l.
Proof.
  induction l as [|y l IH]; [done|].
  intros Hx. apply not_elem_of_cons in Hx as [Hne Hx].
  rewrite filter_cons_True by done. by rewrite IH.
Qed.

Lemma filter_ne_snoc {A} `{EqDecision A} (x : A) (l : list A) :
  x ∉ l → filter (λ y, y ≠ x) (l ++ [x]) = l.
Proof.
  intros Hx. rewrite filter_app, filter_ne_fresh by done.
  rewrite filter_cons_False by (intros H; by apply H). cbn. apply app_nil_r.
Qed.



(** X5. Subscribing and unsubscribing is a round trip: when [cb] was
    not yet registered for the change event, [onchange cb] followed by
    the function it returns gives back the very world it started from;
    in any case the listeners of other callbacks and of other events,
    the error registration of [cb] included, are neither removed nor
    reordered. *)
Theorem onchange_unsubscribe_round_trip (w0 w : World) (fn : list string) (cb : Callback) :
  select_fn w0 = Some fn →
  ∃ unsubscribe w1 w2,
    Fullscrn.onchange (fullscrn w0) cb w = Normal unsubscribe w1 ∧
    unsubscribe w1 = Normal tt w2 ∧
    listeners w2 = filter (λ l, l ≠ (eventNames fn EvChange, cb)) (listeners w) ∧
    ((eventNames fn EvChange, cb) ∉ listeners w → w2 = w).
Proof.
  intros Hsel. rewrite (fullscrn_supported _ _ Hsel). cbn.
  pose proof (change_name_truthy _ _ EvChange Hsel) as Ht.
  unfold onchange, bind, addEventListener, modify, ret.
  eexists _, _, _. split; [reflexivity|].
  unfold _off. rewrite Ht. unfold removeEventListener, modify.
  split; [reflexivity|].
  assert (Hl : filter (λ l, l ≠ (eventNames fn EvChange, cb))
                 (if decide ((eventNames fn EvChange, cb) ∈ listeners w)
                  then listeners w
                  else listeners w ++ [(eventNames fn EvChange, cb)])
               = filter (λ l, l ≠ (eventNames fn EvChange, cb)) (listeners w)).
  { case_decide as Hin; [done|]. by rewrite filter_ne_snoc, filter_ne_fresh. }
  split; [exact Hl|].
  intros Hfresh. unfold set_listeners. cbn.
  change (row_at fn 4) with (eventNames fn EvChange). rewrite Hl.
  rewrite filter_ne_fresh by done. by destruct w.
Qed.

Lemma onchange_unsubscribe_round_trip_witness :
  ∃ unsubscribe w1 w2,
    Fullscrn.onchange (fullscrn standard_host) (UserCb 5) subscribed_host
      = Normal unsubscribe w1 ∧
    unsubscribe w1 = Normal tt w2 ∧
    w2 = subscribed_host.
Proof.
  destruct (onchange_unsubscribe_round_trip standard_host subscribed_host standard_fn
              (UserCb 5) eq_refl) as (u & w1 & w2 & H1 & H2 & _ & H3).
  exists u, w1, w2. split; [exact H1|]. split; [exact H2|].
  apply H3. cbn. intros Hin.
  apply elem_of_cons in Hin as [Heq|Hin]; [discriminate|].
  apply elem_of_cons in Hin as [Heq|Hin]; [discriminate|].
  by apply elem_of_nil in Hin.
Defined.

(** *** Delivery *)

(** The event loop never removes a listener of the application. *)
Lemma user_listener_invoked (l : string) (n : nat) (c : Callback) (w : World) :
  (l, UserCb n) ∈ listeners w → (l, UserCb n) ∈ listeners (invoked c w).
Proof.
  intros Hin. destruct c as [m|fn p|fn p]; [done| |];
    by apply invoked_listeners.
Qed.

Lemma user_listener_run_job (l : string) (n : nat) (j : Job) (w : World) :
  (l, UserCb n) ∈ listeners w → (l, UserCb n) ∈ listeners (run_job j w).
Proof.
  intros Hin. rewrite run_job_eq. destruct j as [[|e] cb p|e p]; cbn; try done.
  - by apply user_listener_invoked.
  - by rewrite listeners_settle_outcome.
Qed.

Lemma user_listener_drain (l : string) (n : nat) (w : World) :
  (l, UserCb n) ∈ listeners w → (l, UserCb n) ∈ listeners (drain w).
Proof.
  intros Hin. apply (drain_ind (λ w', (l, UserCb n) ∈ listeners w')); [|done].
  intros w' j rest _ Hw'. by apply user_listener_run_job.
Qed.

Lemma user_listener_dispatch_loop (l : string) (n : nat)
    (snapshot : list Listener) (w : World) :
  (l, UserCb n) ∈ listeners w → (l, UserCb n) ∈ listeners (dispatch_loop snapshot w).
Proof.
  revert w. induction snapshot as [|l' rest IH]; intros w Hin; cbn; [done|].
  apply IH. destruct (decide (l' ∈ listeners w)); [|done].
  by apply user_listener_drain, (user_listener_invoked l n l'.2).
Qed.

Lemma user_listener_step (l : string) (n : nat) (t : Task) (w : World) :
  (l, UserCb n) ∈ listeners w → (l, UserCb n) ∈ listeners (step t w).
Proof.
  intros Hin. destruct t as [type|a s|k [v|]|]; try done.
  - by apply user_listener_dispatch_loop.
  - unfold step, settle. by destruct (settled w !! a).
  - by apply user_listener_drain.
Qed.

Lemma user_listener_run_task (l : string) (n : nat) (t : Task) (w : World) :
  (l, UserCb n) ∈ listeners w → (l, UserCb n) ∈ listeners (run_task t w).
Proof. intros Hin. by apply user_listener_drain, user_listener_step. Qed.

Lemma user_listener_run_tasks (l : string) (n : nat) (ts : list Task) (w : World) :
  (l, UserCb n) ∈ listeners w → (l, UserCb n) ∈ listeners (run_tasks ts w).
Proof.
  unfold run_tasks, steps. intros Hin%user_listener_drain. apply user_listener_drain.
  revert Hin. generalize (drain w).
  induction ts as [|t ts IH]; intros w' Hin; cbn; [done|].
  by apply IH, user_listener_step.
Qed.

(** The listener list stays free of duplicates. *)
Lemma NoDup_listeners_invoked (c : Callback) (w : World) :
  NoDup (listeners w) → NoDup (listeners (invoked c w)).
Proof.
  intros Hnd. unfold invoked. destruct c as [m|fn p|fn p]; cbn; try done;
    unfold onFullScreen_body, _off, bind;
    destruct (truthy (VStr (eventNames fn EvChange))); cbn;
    rewrite listeners_settle_outcome; cbn; try done;
    by apply NoDup_filter.
Qed.

Lemma NoDup_listeners_run_job (j : Job) (w : World) :
  NoDup (listeners w) → NoDup (listeners (run_job j w)).
Proof.
  intros Hnd. rewrite run_job_eq. destruct j as [[|e] cb p|e p]; cbn; try done.
  - by apply NoDup_listeners_invoked.
  - by rewrite listeners_settle_outcome.
Qed.

Lemma NoDup_listeners_drain (w : World) :
  NoDup (listeners w) → NoDup (listeners (drain w)).
Proof.
  intros Hnd. apply (drain_ind (λ w', NoDup (listeners w'))); [|done].
  intros w' j rest _ Hw'. by apply NoDup_listeners_run_job.
Qed.

Lemma NoDup_listeners_dispatch_loop (snapshot : list Listener) (w : World) :
  NoDup (listeners w) → NoDup (listeners (dispatch_loop snapshot w)).
Proof.
  revert w. induction snapshot as [|l rest IH]; intros w Hnd; cbn; [done|].
  apply IH. destruct (decide (l ∈ listeners w)); [|done].
  by apply NoDup_listeners_drain, (NoDup_listeners_invoked l.2).
Qed.

Lemma NoDup_listeners_step (t : Task) (w : World) :
  NoDup (listeners w) → NoDup (listeners (step t w)).
Proof.
  intros Hnd. destruct t as [type|a s|k [v|]|]; try done.
  - by apply NoDup_listeners_dispatch_loop.
  - unfold step, settle. by destruct (settled w !! a).
  - by apply NoDup_listeners_drain.
Qed.

Lemma NoDup_listeners_run_task (t : Task) (w : World) :
  NoDup (listeners w) → NoDup (listeners (run_task t w)).
Proof. intros Hnd. by apply NoDup_listeners_drain, NoDup_listeners_step. Qed.

Lemma NoDup_listeners_run_tasks (ts : list Task) (w : World) :
  NoDup (listeners w) → NoDup (listeners (run_tasks ts w)).
Proof.
  unfold run_tasks, steps. intros Hnd%NoDup_listeners_drain. apply NoDup_listeners_drain.
  revert Hnd. generalize (drain w).
  induction ts as [|t ts IH]; intros w' Hnd; cbn; [done|].
  by apply IH, NoDup_listeners_step.
Qed.

Lemma NoDup_addEventListener (type : string) (cb : Callback) (w : World) :
  NoDup (listeners w) → NoDup (listeners (world_of (addEventListener type cb w))).
Proof.
  intros Hnd. cbn. case_decide as Hin; [done|].
  apply NoDup_app. split; [done|]. split; [|apply NoDup_singleton].
  intros x Hx ->%list_elem_of_singleton. by apply Hin.
Qed.

(** What one dispatch calls: a sublist of the snapshot, with every
    listener of the application that is in it. *)
Lemma dispatch_loop_fired (snapshot : list Listener) (w : World) :
  ∃ extra, fired (dispatch_loop snapshot w) = fired w ++ extra ∧
           extra `sublist_of` snapshot.*2 ∧
           ∀ l n, (l, UserCb n) ∈ snapshot → (l, UserCb n) ∈ listeners w →
                  UserCb n ∈ extra.
Proof.
  revert w. induction snapshot as [|l rest IH]; intros w; cbn.
  - exists []. split; [by rewrite app_nil_r|]. split; [constructor|].
    by intros l n ?%elem_of_nil.
  - destruct (decide (l ∈ listeners w)) as [Hl|Hl].
    + set (w' := drain (world_of (invoke l.2 (set_fired (λ f, f ++ [l.2]) w)))).
      destruct (IH w') as (extra & Hf & Hsub & Huser).
      assert (Hfw : fired w' = fired w ++ [l.2]).
      { subst w'.
        destruct (drain_fields (world_of (invoke l.2 (set_fired (λ f, f ++ [l.2]) w))))
          as (_ & _ & _ & _ & ->).
        fold (invoked l.2 (set_fired (λ f, f ++ [l.2]) w)).
        by destruct (invoked_fields l.2 (set_fired (λ f, f ++ [l.2]) w))
          as (_ & _ & _ & _ & _ & ->). }
      exists (l.2 :: extra). split; [by rewrite Hf, Hfw, <- app_assoc|].
      split; [by constructor|].
      intros l0 n [Heq|Hin]%elem_of_cons Hw.
      * subst l. cbn. left.
      * right. apply (Huser l0 n Hin). subst w'.
        apply user_listener_drain.
        by apply (user_listener_invoked l0 n l.2 (set_fired (λ f, f ++ [l.2]) w)).
    + destruct (IH w) as (extra & Hf & Hsub & Huser).
      exists extra. split; [done|]. split; [by constructor|].
      intros l0 n [Heq|Hin]%elem_of_cons Hw; [by subst l|]. by apply (Huser l0 n).
Qed.

Lemma newly_fired_dispatch_user (type : string) (n : nat) (w : World) :
  NoDup (listeners w) → (type, UserCb n) ∈ listeners w →
  UserCb n ∈ newly_fired w (run_task (TDispatch type) w) ∧
  NoDup (newly_fired w (run_task (TDispatch type) w)).
Proof.
  intros Hnd Hin. unfold newly_fired, run_task, step, dispatch.
  set (snapshot := filter (λ l, l.1 = type) (listeners w)).
  destruct (drain_fields (dispatch_loop snapshot w)) as (_ & _ & _ & _ & ->).
  destruct (dispatch_loop_fired snapshot w) as (extra & -> & Hsub & Huser).
  rewrite drop_app_length. split.
  - apply (Huser type n); [|done]. by apply list_elem_of_filter.
  - apply (sublist_NoDup extra (snapshot.*2)); [|done].
    apply NoDup_fmap_2_strong; [|by apply NoDup_filter].
    intros [t1 c1] [t2 c2] [H1 _]%list_elem_of_filter [H2 _]%list_elem_of_filter Hc.
    cbn in *. by subst.
Qed.

(** X7. A function of the application subscribed with [onchange] stays
    subscribed whatever the host does, and every change event calls it:
    exactly once, as no callback is called twice by one event. *)
Theorem onchange_delivers_once (w0 w : World) (fn : list string) (n : nat) :
  select_fn w0 = Some fn →
  NoDup (listeners w) →
  ∃ unsubscribe w1,
    Fullscrn.onchange (fullscrn w0) (UserCb n) w = Normal unsubscribe w1 ∧
    ∀ ts, let w2 := run_tasks ts w1 in
          let w3 := run_task (TDispatch (eventNames fn EvChange)) w2 in
          UserCb n ∈ newly_fired w2 w3 ∧ NoDup (newly_fired w2 w3).
Proof.
  intros Hsel Hnd. rewrite (fullscrn_supported _ _ Hsel). cbn.
  unfold onchange, bind, ret.
  eexists _, _. split; [reflexivity|]. intros ts.
  change (modify ?f w) with (addEventListener (eventNames fn EvChange) (UserCb n) w).
  set (w1 := world_of (addEventListener (eventNames fn EvChange) (UserCb n) w)).
  change (set_listeners _ w) with w1.
  apply newly_fired_dispatch_user.
  - by apply NoDup_listeners_run_tasks, NoDup_addEventListener.
  - apply user_listener_run_tasks. subst w1. cbn.
    case_decide; [done|]. apply elem_of_app. right. by left.
Qed.

Lemma onchange_delivers_once_witness :
  ∃ unsubscribe w1,
    Fullscrn.onchange (fullscrn standard_host) (UserCb 6) subscribed_host
      = Normal unsubscribe w1 ∧
    UserCb 6 ∈ newly_fired w1 (run_task (TDispatch "fullscreenchange") w1) ∧
    NoDup (newly_fired w1 (run_task (TDispatch "fullscreenchange") w1)).
Proof.
  destruct (onchange_delivers_once standard_host subscribed_host standard_fn 6 eq_refl)
    as (u & w1 & H1 & H2).
  - cbn. apply NoDup_cons. split.
    + intros Hin. apply list_elem_of_singleton in Hin. discriminate.
    + apply NoDup_singleton.
  - exists u, w1. split; [exact H1|].
    assert (Hnil : run_tasks [] w1 = w1).
    { injection H1 as _ <-. reflexivity. }
    pose proof (H2 []) as H4. cbv zeta in H4.
    rewrite Hnil in H4. exact H4.
Defined.

Lemma event_names_differ (w0 : World) (fn : list string) :
  select_fn w0 = Some fn → eventNames fn EvChange ≠ eventNames fn EvError.
Proof. by intros [-> | ->]%select_fn_in_table. Qed.

(** X8. A function of the application subscribed with [onerror] is
    called by every error event; change events do not reach it, unless
    it was subscribed to them as well. *)
Theorem onerror_delivers (w0 w : World) (fn : list string) (n : nat) :
  select_fn w0 = Some fn →
  NoDup (listeners w) →
  ∃ unsubscribe w1,
    Fullscrn.onerror (fullscrn w0) (UserCb n) w = Normal unsubscribe w1 ∧
    ∀ ts, let w2 := run_tasks ts w1 in
          UserCb n ∈ newly_fired w2 (run_task (TDispatch (eventNames fn EvError)) w2) ∧
          ((eventNames fn EvChange, UserCb n) ∉ listeners w →
           UserCb n ∉ newly_fired w2 (run_task (TDispatch (eventNames fn EvChange)) w2)).
Proof.
  intros Hsel Hnd. rewrite (fullscrn_supported _ _ Hsel). cbn.
  unfold onerror, bind, ret.
  eexists _, _. split; [reflexivity|]. intros ts.
  change (modify ?f w) with (addEventListener (eventNames fn EvError) (UserCb n) w).
  set (w1 := world_of (addEventListener (eventNames fn EvError) (UserCb n) w)).
  change (set_listeners _ w) with w1.
  assert (Hin : (eventNames fn EvError, UserCb n) ∈ listeners w1).
  { subst w1. cbn. case_decide; [done|]. apply elem_of_app. right. by left. }
  split.
  - apply newly_fired_dispatch_user.
    + by apply NoDup_listeners_run_tasks, NoDup_addEventListener.
    + by apply user_listener_run_tasks.
  - intros Hfresh Hfired. apply Hfresh.
    apply newly_fired_dispatch, listeners_run_tasks in Hfired.
    subst w1. cbn in Hfired. case_decide; [done|].
    apply elem_of_app in Hfired as [?|Heq%list_elem_of_singleton]; [done|].
    injection Heq as Heq. by apply (event_names_differ _ _ Hsel) in Heq.
Qed.

Lemma onerror_delivers_witness :
  ∃ unsubscribe w1,
    Fullscrn.onerror (fullscrn standard_host) (UserCb 5) standard_host
      = Normal unsubscribe w1 ∧
    UserCb 5 ∈ newly_fired w1 (run_task (TDispatch "fullscreenerror") w1) ∧
    UserCb 5 ∉ newly_fired w1 (run_task (TDispatch "fullscreenchange") w1).
Proof.
  destruct (onerror_delivers standard_host standard_host standard_fn 5 eq_refl)
    as (u & w1 & H1 & H2).
  - apply NoDup_nil_2.
  - exists u, w1. split; [exact H1|].
    assert (Hnil : run_tasks [] w1 = w1).
    { injection H1 as _ <-. reflexivity. }
    pose proof (H2 []) as [H3 H4]. cbv zeta in H3, H4.
    rewrite Hnil in H3, H4. split; [exact H3|].
    apply H4. cbn. intros Hin. by apply elem_of_nil in Hin.
Defined.

(** ** The life of the one-shot listener *)

(** A closure of the facade takes itself off the change event. *)
Lemma invoked_removes_self (w0 : World) (fn : list string) (cb : Callback) (w : World) :
  select_fn w0 = Some fn →
  (∃ p, cb = OnFullScreenEntered fn p ∨ cb = OnFullScreenExit fn p) →
  (eventNames fn EvChange, cb) ∉ listeners (invoked cb w).
Proof.
  intros Hsel (p & [-> | ->]); unfold invoked; cbn;
    unfold onFullScreen_body, _off, bind;
    rewrite (change_name_truthy _ _ EvChange Hsel); cbn;
    rewrite listeners_settle_outcome; cbn;
    rewrite list_elem_of_filter; tauto.
Qed.

Lemma dispatch_loop_removes (w0 : World) (fn : list string) (cb : Callback)
    (snapshot : list Listener) (w : World) :
  select_fn w0 = Some fn →
  (∃ p, cb = OnFullScreenEntered fn p ∨ cb = OnFullScreenExit fn p) →
  (eventNames fn EvChange, cb) ∈ snapshot ∨ (eventNames fn EvChange, cb) ∉ listeners w →
  (eventNames fn EvChange, cb) ∉ listeners (dispatch_loop snapshot w).
Proof.
  intros Hsel Hcb. revert w.
  induction snapshot as [|l rest IH]; intros w [Hin|Hout]; cbn.
  - by apply elem_of_nil in Hin.
  - done.
  - apply IH. destruct (decide (l ∈ listeners w)) as [Hl|Hl].
    + apply elem_of_cons in Hin as [<-|Hin]; [|by left].
      right. cbn. intros H%listeners_drain. revert H.
      by apply (invoked_removes_self w0 fn cb).
    + apply elem_of_cons in Hin as [<-|Hin]; [by right|by left].
  - apply IH. right. destruct (decide (l ∈ listeners w)); [|done].
    intros H%listeners_drain. by apply invoked_listeners in H.
Qed.

(** After a change event the closure is registered no more. *)
Lemma change_step_removes (w0 : World) (fn : list string) (cb : Callback) (w : World) :
  select_fn w0 = Some fn →
  (∃ p, cb = OnFullScreenEntered fn p ∨ cb = OnFullScreenExit fn p) →
  (eventNames fn EvChange, cb) ∉ listeners (step (TDispatch (eventNames fn EvChange)) w).
Proof.
  intros Hsel Hcb. apply (dispatch_loop_removes w0 fn cb); try done.
  destruct (decide ((eventNames fn EvChange, cb) ∈ listeners w)) as [Hin|Hout];
    [left|by right].
  by apply list_elem_of_filter.
Qed.

Lemma change_event_removes (w0 : World) (fn : list string) (cb : Callback) (w : World) :
  select_fn w0 = Some fn →
  (∃ p, cb = OnFullScreenEntered fn p ∨ cb = OnFullScreenExit fn p) →
  (eventNames fn EvChange, cb) ∉
    listeners (run_task (TDispatch (eventNames fn EvChange)) w).
Proof.
  intros Hsel Hcb H. unfold run_task in H. apply listeners_drain in H. revert H.
  by apply (change_step_removes w0 fn cb).
Qed.

(** Once the fulfilled reaction is queued the listener is on its way
    out: it is gone, or the reaction that removes it is still to run. *)
Lemma leaving_run_job (w0 : World) (fn : list string) (cb : Callback)
    (w : World) (j : Job) (rest : list Job) :
  select_fn w0 = Some fn →
  (∃ p, cb = OnFullScreenEntered fn p ∨ cb = OnFullScreenExit fn p) →
  jobs w = j :: rest →
  ((eventNames fn EvChange, cb) ∉ listeners w) ∨ (∃ q, JThen SFulfilled cb q ∈ jobs w) →
  ((eventNames fn EvChange, cb) ∉ listeners (run_job j (set_jobs (λ _, rest) w))) ∨
  (∃ q, JThen SFulfilled cb q ∈ jobs (run_job j (set_jobs (λ _, rest) w))).
Proof.
  intros Hsel Hcb Hj [Hout|(q & Hin)].
  - left. intros H%listeners_run_job. by apply Hout.
  - rewrite Hj in Hin. apply elem_of_cons in Hin as [<-|Hin].
    + left. rewrite run_job_eq. by apply (invoked_removes_self w0 fn cb).
    + right. exists q. rewrite jobs_run_job. apply elem_of_app. by left.
Qed.

Lemma leaving_drain (w0 : World) (fn : list string) (cb : Callback) (w : World) :
  select_fn w0 = Some fn →
  (∃ p, cb = OnFullScreenEntered fn p ∨ cb = OnFullScreenExit fn p) →
  ((eventNames fn EvChange, cb) ∉ listeners w) ∨ (∃ q, JThen SFulfilled cb q ∈ jobs w) →
  (eventNames fn EvChange, cb) ∉ listeners (drain w).
Proof.
  intros Hsel Hcb Hw.
  assert (H : ((eventNames fn EvChange, cb) ∉ listeners (drain w)) ∨
              (∃ q, JThen SFulfilled cb q ∈ jobs (drain w))).
  { revert Hw.
    apply (drain_ind (λ w', ((eventNames fn EvChange, cb) ∉ listeners w') ∨
                            (∃ q, JThen SFulfilled cb q ∈ jobs w'))).
    intros w' j rest. by apply (leaving_run_job w0). }
  destruct H as [H|(q & H)]; [done|].
  rewrite jobs_drain in H. by apply elem_of_nil in H.
Qed.

Lemma leaving_dispatch_loop (w0 : World) (fn : list string) (cb : Callback)
    (snapshot : list Listener) (w : World) :
  select_fn w0 = Some fn →
  (∃ p, cb = OnFullScreenEntered fn p ∨ cb = OnFullScreenExit fn p) →
  ((eventNames fn EvChange, cb) ∉ listeners w) ∨ (∃ q, JThen SFulfilled cb q ∈ jobs w) →
  ((eventNames fn EvChange, cb) ∉ listeners (dispatch_loop snapshot w)) ∨
  (∃ q, JThen SFulfilled cb q ∈ jobs (dispatch_loop snapshot w)).
Proof.
  intros Hsel Hcb. revert w.
  induction snapshot as [|l rest IH]; intros w Hw; cbn; [done|].
  apply IH. destruct (decide (l ∈ listeners w)); [|done].
  left. fold (invoked l.2 (set_fired (λ f, f ++ [l.2]) w)).
  apply (leaving_drain w0); try done.
  destruct (invoked_fields l.2 (set_fired (λ f, f ++ [l.2]) w)) as (_ & _ & _ & -> & _).
  destruct Hw as [Hout|Hin]; [left|by right].
  intros H. by apply (proj1 (invoked_listeners _ _)) in H.
Qed.

Lemma leaving_steps (w0 : World) (fn : list string) (cb : Callback)
    (ts : list Task) (w : World) :
  select_fn w0 = Some fn →
  (∃ p, cb = OnFullScreenEntered fn p ∨ cb = OnFullScreenExit fn p) →
  ((eventNames fn EvChange, cb) ∉ listeners w) ∨ (∃ q, JThen SFulfilled cb q ∈ jobs w) →
  ((eventNames fn EvChange, cb) ∉ listeners (steps ts w)) ∨
  (∃ q, JThen SFulfilled cb q ∈ jobs (steps ts w)).
Proof.
  intros Hsel Hcb. revert w.
  induction ts as [|t ts IH]; intros w Hw; [done|].
  rewrite steps_cons. apply IH.
  destruct t as [type|a s|k [v|]|]; cbn; try done.
  - by apply (leaving_dispatch_loop w0).
  - unfold settle. destruct (settled w !! a); [done|]. cbn.
    destruct Hw as [Hout|(q & Hin)]; [by left|right].
    exists q. apply elem_of_app. by left.
  - left. by apply (leaving_drain w0).
Qed.

(** X9. The listener [request] registers is one-shot: it is registered
    while the promise is pending, and gone once the change event has
    fired or the promise returned by the request operation has been
    fulfilled; nothing brings it back. *)
Theorem request_listener_one_shot (w0 w : World) (fn : list string)
    (element options : JsVal) (r : nat) (v : JsVal) :
  select_fn w0 = Some fn →
  well_formed w →
  method_of w (request_target w element) (requestFullscreen fn) = VFun r →
  host_fun w r (request_target w element) [options] = Returns v →
  (∀ a, v = VPromise a → settled w !! a = None) →
  ∃ p w1,
    Fullscrn.request (fullscrn w0) element options w = Normal p w1 ∧
    let l := (eventNames fn EvChange, OnFullScreenEntered fn p) in
    ∀ ts, Forall (quiet (eventNames fn EvChange) (awaitable_of v)) ts →
      l ∈ listeners (run_tasks ts w1) ∧
      (∀ ts', l ∉ listeners (run_tasks (ts ++ TDispatch (eventNames fn EvChange) :: ts') w1)) ∧
      (∀ a ts', v = VPromise a →
                l ∉ listeners (run_tasks (ts ++ TSettle a SFulfilled :: ts') w1)).
Proof.
  intros Hsel Hwf Hm Hr Hfresh. rewrite (fullscrn_supported _ _ Hsel). cbn.
  rewrite request_eq. eexists _, _. split; [reflexivity|].
  set (p := length (outcomes w)). set (cb := OnFullScreenEntered fn p).
  set (w1 := request_world fn element options w).
  pose proof (request_waiting fn element options w r v Hwf Hm Hr Hfresh) as Hcalm.
  cbv zeta in Hcalm. fold p cb w1 in Hcalm.
  assert (Hcb : ∃ q, cb = OnFullScreenEntered fn q ∨ cb = OnFullScreenExit fn q)
    by (exists p; by left).
  intros ts Hq.
  split; [by apply (calm_listener _ cb p (awaitable_of v) eq_refl)|]. split.
  - intros ts' Hin. unfold run_tasks in Hin. rewrite steps_app, steps_cons in Hin.
    apply listeners_drain, listeners_steps in Hin. revert Hin.
    by apply (change_step_removes w0 fn cb).
  - intros a ts' ->. unfold run_tasks. rewrite steps_app, steps_cons.
    apply (leaving_drain w0); try done. apply (leaving_steps w0); try done.
    right. exists p.
    pose proof (calm_steps _ cb p _ eq_refl ts _ Hq
                  (calm_drain _ cb p _ eq_refl _ Hcalm)) as [Hw2 _].
    destruct (wt_tracked _ _ _ _ _ Hw2 a eq_refl) as [Hsa Hreact].
    cbn. unfold settle. rewrite Hsa. cbn. apply elem_of_app. right.
    apply (list_elem_of_fmap_2 (λ r, JThen SFulfilled (r_then r) (r_reject r))
             _ (mkReaction a cb p)).
    by apply list_elem_of_filter.
Qed.

Lemma request_listener_one_shot_witness :
  ∃ p w1,
    Fullscrn.request (fullscrn standard_host) VUndefined VUndefined standard_host
      = Normal p w1 ∧
    ("fullscreenchange", OnFullScreenEntered standard_fn p) ∈ listeners (run_tasks [] w1) ∧
    (("fullscreenchange", OnFullScreenEntered standard_fn p)
       ∉ listeners (run_tasks [TDispatch "fullscreenchange"] w1)) ∧
    (("fullscreenchange", OnFullScreenEntered standard_fn p)
       ∉ listeners (run_tasks [TSettle 0 SFulfilled] w1)).
Proof.
  destruct (request_listener_one_shot standard_host standard_host standard_fn
              VUndefined VUndefined 0 (VPromise 0) eq_refl)
    as (p & w1 & Hreq & H).
  - apply well_formed_initial; reflexivity.
  - reflexivity.
  - reflexivity.
  - intros a _. reflexivity.
  - exists p, w1. split; [exact Hreq|].
    cbv zeta in H.
    destruct (H [] (List.Forall_nil _)) as (Hin & Hchange & Hfulfil).
    split; [exact Hin|]. split; [exact (Hchange [])|].
    exact (Hfulfil 0 [] eq_refl).
Defined.

(** X10. A rejection does not unregister the listener: once the
    promise returned by the request operation has rejected and the task
    has ended without a change event, the promise of [request] is
    rejected and its closure is still subscribed to the change event;
    the next change event removes it and leaves the promise rejected. *)
Theorem rejection_leaves_listener (w0 w : World) (fn : list string)
    (element options : JsVal) (a : nat) :
  select_fn w0 = Some fn →
  well_formed w →
  request_call fn element options w = Returns (VPromise a) →
  settled w !! a = None →
  ∃ p w1,
    Fullscrn.request (fullscrn w0) element options w = Normal p w1 ∧
    let l := (eventNames fn EvChange, OnFullScreenEntered fn p) in
    ∀ ts ts2 e, Forall (quiet (eventNames fn EvChange) (Some a)) ts →
                Forall (λ t, t ≠ TDispatch (eventNames fn EvChange)) ts2 →
      let w2 := run_tasks (ts ++ TSettle a (SRejected e) :: ts2) w1 in
      let w3 := run_task (TDispatch (eventNames fn EvChange)) w2 in
      outcome p w2 = Some (Rejected e) ∧ l ∈ listeners w2 ∧
      (l ∉ listeners w3) ∧ outcome p w3 = Some (Rejected e).
Proof.
  intros Hsel Hwf (r & Hm & Hr)%request_call_returns Hs.
  rewrite (fullscrn_supported _ _ Hsel). cbn.
  rewrite request_eq. eexists _, _. split; [reflexivity|].
  set (p := length (outcomes w)). set (cb := OnFullScreenEntered fn p).
  set (w1 := request_world fn element options w).
  assert (Hcalm : waiting (eventNames fn EvChange) cb p (Some a) w1 ∧
                  Forall (foreign_job p) (jobs w1)).
  { apply (request_waiting fn element options w r (VPromise a)); try done.
    by intros a' [= <-]. }
  intros ts ts2 e Hq Hts2.
  destruct (calm_rejected _ cb p (Some a) eq_refl a e ts ts2 w1 Hcalm Hq eq_refl Hts2)
    as [Hrej Hin].
  split; [exact Hrej|]. split; [exact Hin|]. split.
  - apply (change_event_removes w0 fn cb); [done|]. exists p. by left.
  - by apply (keeps_final_run_task _ _ p (Rejected e)).
Qed.

Lemma rejection_leaves_listener_witness :
  ∃ p w1,
    Fullscrn.request (fullscrn standard_host) VUndefined VUndefined standard_host
      = Normal p w1 ∧
    let w2 := run_tasks [TSettle 0 (SRejected (VStr "denied")); TDispatch "fullscreenerror"] w1 in
    outcome p w2 = Some (Rejected (VStr "denied")) ∧
    ("fullscreenchange", OnFullScreenEntered standard_fn p) ∈ listeners w2 ∧
    (("fullscreenchange", OnFullScreenEntered standard_fn p)
       ∉ listeners (run_task (TDispatch "fullscreenchange") w2)) ∧
    outcome p (run_task (TDispatch "fullscreenchange") w2)
      = Some (Rejected (VStr "denied")).
Proof.
  destruct (rejection_leaves_listener standard_host standard_host standard_fn
              VUndefined VUndefined 0 eq_refl)
    as (p & w1 & Hreq & H).
  - apply well_formed_initial; reflexivity.
  - reflexivity.
  - reflexivity.
  - exists p, w1. split; [exact Hreq|].
    cbv zeta in H. cbv zeta.
    apply (H [] [TDispatch "fullscreenerror"] (VStr "denied") (List.Forall_nil _)).
    repeat constructor. discriminate.
Defined.

(** X11. A request that fails at once leaves its listener behind: when
    the promise [request] returns is rejected already (the operation is
    missing or threw), the closure registered before the call is still
    subscribed to the change event and no reaction was attached; the
    next change event removes the closure. *)
Theorem failed_request_leaves_listener (w0 w w1 : World) (fn : list string)
    (element options : JsVal) (p : nat) (e : JsVal) :
  select_fn w0 = Some fn →
  Fullscrn.request (fullscrn w0) element options w = Normal p w1 →
  outcome p w1 = Some (Rejected e) →
  let l := (eventNames fn EvChange, OnFullScreenEntered fn p) in
  l ∈ listeners w1 ∧
  reactions w1 = reactions w ∧
  l ∉ listeners (run_task (TDispatch (eventNames fn EvChange)) w1).
Proof.
  intros Hsel. rewrite (fullscrn_supported _ _ Hsel). cbn.
  rewrite request_eq. intros [= <- <-] Hrej.
  set (p := length (outcomes w)) in *. set (cb := OnFullScreenEntered fn p).
  split; [|split].
  3:{ apply (change_event_removes w0 fn cb); [done|]. exists p. by left. }
  - revert Hrej. unfold request_world. fold p cb.
    assert (Hin : (eventNames fn EvChange, cb) ∈
                  listeners (world_of (onchange fn cb (set_outcomes (λ os, os ++ [Pending]) w)))).
    { cbn. case_decide; [done|]. apply elem_of_app. right. by left. }
    assert (Hpend : ∀ w', outcomes w' = outcomes w ++ [Pending] →
                          outcome p w' = Some (Rejected e) → False).
    { intros w' Ho. unfold outcome. rewrite Ho.
      unfold p. by rewrite lookup_app_r, Nat.sub_diag. }
    destruct (method_of w (request_target w element) (requestFullscreen fn));
      try (intros _; by rewrite listeners_settle_outcome).
    destruct (host_fun w r (request_target w element) [options]) as [v|e'].
    + intros Hrej. exfalso. revert Hrej. apply Hpend.
      destruct v; try reflexivity.
      unfold then_catch. cbn. by destruct (settled w !! a).
    + intros _. by rewrite listeners_settle_outcome.
  - revert Hrej. unfold request_world. fold p cb.
    assert (Hpend : ∀ w', outcomes w' = outcomes w ++ [Pending] →
                          outcome p w' = Some (Rejected e) → False).
    { intros w' Ho. unfold outcome. rewrite Ho.
      unfold p. by rewrite lookup_app_r, Nat.sub_diag. }
    destruct (method_of w (request_target w element) (requestFullscreen fn));
      try (intros _; by destruct (settle_outcome_fields p (Rejected (VError "TypeError"))
             (world_of (onchange fn cb (set_outcomes (λ os, os ++ [Pending]) w))))
             as (_ & _ & _ & -> & _)).
    destruct (host_fun w r (request_target w element) [options]) as [v|e'].
    + intros Hrej. exfalso. revert Hrej. apply Hpend.
      destruct v; try reflexivity.
      unfold then_catch. cbn. by destruct (settled w !! a).
    + intros _.
      by destruct (settle_outcome_fields p (Rejected e')
             (set_calls (λ l, l ++ [mkCall r (request_target w element) [options]])
                (world_of (onchange fn cb (set_outcomes (λ os, os ++ [Pending]) w)))))
             as (_ & _ & _ & -> & _).
Qed.

Lemma failed_request_leaves_listener_witness :
  ∃ p w1,
    Fullscrn.request (fullscrn throwing_host) VUndefined VUndefined throwing_host
      = Normal p w1 ∧
    ("fullscreenchange", OnFullScreenEntered standard_fn p) ∈ listeners w1 ∧
    reactions w1 = [] ∧
    (("fullscreenchange", OnFullScreenEntered standard_fn p)
       ∉ listeners (run_task (TDispatch "fullscreenchange") w1)).
Proof.
  eexists _, _. split; [reflexivity|].
  exact (failed_request_leaves_listener throwing_host throwing_host _ standard_fn
           VUndefined VUndefined _ (VStr "denied") eq_refl eq_refl eq_refl).
Defined.

(** X12. When the target has no request operation (the property is
    missing or is not a function, or the target is [null]), [request]
    calls nothing on the host and returns a promise rejected with a
    TypeError. *)
Theorem request_without_operation (w0 w : World) (fn : list string)
    (element options : JsVal) :
  select_fn w0 = Some fn →
  (∀ r, method_of w (request_target w element) (requestFullscreen fn) ≠ VFun r) →
  ∃ p w1,
    Fullscrn.request (fullscrn w0) element options w = Normal p w1 ∧
    calls w1 = calls w ∧
    outcome p w1 = Some (Rejected (VError "TypeError")) ∧
    ∀ ts, outcome p (run_tasks ts w1) = Some (Rejected (VError "TypeError")).
Proof.
  intros Hsel Hno. rewrite (fullscrn_supported _ _ Hsel). cbn.
  rewrite request_eq. eexists _, _. split; [reflexivity|].
  assert (Hw : request_world fn element options w =
               settle_outcome (length (outcomes w)) (Rejected (VError "TypeError"))
                 (world_of (onchange fn (OnFullScreenEntered fn (length (outcomes w)))
                              (set_outcomes (λ os, os ++ [Pending]) w)))).
  { unfold request_world.
    destruct (method_of w (request_target w element) (requestFullscreen fn)) eqn:Hm;
      try reflexivity.
    by destruct (Hno r). }
  rewrite Hw. split; [by rewrite calls_settle_outcome|].
  assert (Hrej : outcome (length (outcomes w))
                   (settle_outcome (length (outcomes w)) (Rejected (VError "TypeError"))
                      (world_of (onchange fn (OnFullScreenEntered fn (length (outcomes w)))
                                   (set_outcomes (λ os, os ++ [Pending]) w))))
                 = Some (Rejected (VError "TypeError"))).
  { unfold outcome. apply outcomes_settle_outcome_pending. cbn.
    by rewrite lookup_app_r, Nat.sub_diag. }
  split; [done|]. intros ts.
  by apply (keeps_final_run_tasks ts _ _ _ Hrej).
Qed.

Lemma request_without_operation_witness :
  ∃ p w1,
    Fullscrn.request (fullscrn rootless_host) VUndefined VUndefined rootless_host
      = Normal p w1 ∧
    calls w1 = [] ∧
    outcome p w1 = Some (Rejected (VError "TypeError")) ∧
    ∀ ts, outcome p (run_tasks ts w1) = Some (Rejected (VError "TypeError")).
Proof.
  apply (request_without_operation rootless_host rootless_host standard_fn
           VUndefined VUndefined eq_refl).
  intros r. discriminate.
Defined.

(** ** Overlapping requests *)

Lemma request_world_host (fn : list string) (element options : JsVal) (w : World) :
  props (request_world fn element options w) = props w ∧
  obj_prop (request_world fn element options w) = obj_prop w ∧
  host_fun (request_world fn element options w) = host_fun w ∧
  settled (request_world fn element options w) = settled w.
Proof.
  assert (Hs : ∀ q s w', props (settle_outcome q s w') = props w' ∧
                         obj_prop (settle_outcome q s w') = obj_prop w' ∧
                         host_fun (settle_outcome q s w') = host_fun w' ∧
                         settled (settle_outcome q s w') = settled w').
  { intros q s w'. unfold settle_outcome. by destruct (outcomes w' !! q) as [[]|]. }
  unfold request_world.
  destruct (method_of w (request_target w element) (requestFullscreen fn));
    try (destruct (Hs (length (outcomes w)) (Rejected (VError "TypeError"))
           (world_of (onchange fn (OnFullScreenEntered fn (length (outcomes w)))
                        (set_outcomes (λ os, os ++ [Pending]) w))))
           as (-> & -> & -> & ->); done).
  destruct (host_fun w r (request_target w element) [options]) as [v|e].
  - destruct v; try done. unfold then_catch. cbn. by destruct (settled w !! a).
  - by destruct (Hs (length (outcomes w)) (Rejected e)
           (set_calls (λ l, l ++ [mkCall r (request_target w element) [options]])
              (world_of (onchange fn (OnFullScreenEntered fn (length (outcomes w)))
                           (set_outcomes (λ os, os ++ [Pending]) w)))))
           as (-> & -> & -> & ->).
Qed.

Lemma method_of_ext (w w' : World) (o : JsVal) (k : string) :
  props w' = props w → obj_prop w' = obj_prop w → method_of w' o k = method_of w o k.
Proof.
  intros Hp Ho. unfold method_of, get_prop, doc_get. rewrite Hp, Ho. by destruct o.
Qed.

(** A later request leaves an earlier pending one waiting. *)
Lemma waiting_request_other (ev : string) (cb : Callback) (p : nat)
    (tracked : option nat) (fn : list string) (element options : JsVal)
    (w : World) (r : nat) (v : JsVal) :
  closure_of cb = Some p →
  waiting ev cb p tracked w ∧ Forall (foreign_job p) (jobs w) →
  method_of w (request_target w element) (requestFullscreen fn) = VFun r →
  host_fun w r (request_target w element) [options] = Returns v →
  waiting ev cb p tracked (request_world fn element options w) ∧
  Forall (foreign_job p) (jobs (request_world fn element options w)).
Proof.
  intros Hcb [[H1 H2 H3 H4 H5] Hj] Hm Hr.
  destruct (request_world_returns fn element options w r v Hm Hr)
    as (Ho & Hl & Hs & Hrest).
  set (q := length (outcomes w)) in *.
  set (w' := request_world fn element options w) in *.
  assert (Hpq : p ≠ q).
  { apply lookup_lt_Some in H1. unfold q. lia. }
  assert (Hrj : (∀ x, x ∈ reactions w → x ∈ reactions w') ∧
                (∀ x, x ∈ reactions w' → x ∈ reactions w ∨
                      (r_then x = OnFullScreenEntered fn q ∧ r_reject x = q)) ∧
                (∀ j, j ∈ jobs w' → j ∈ jobs w ∨
                      ∃ s, j = JThen s (OnFullScreenEntered fn q) q)).
  { destruct (awaitable_of v) as [a|]; [destruct (settled w !! a) as [s|]|];
      destruct Hrest as [-> ->]; repeat split; try done; try (by left).
    - intros j [?| ->%list_elem_of_singleton]%elem_of_app; [by left|right; by exists s].
    - intros x Hx. apply elem_of_app. by left.
    - intros x [?| ->%list_elem_of_singleton]%elem_of_app; [by left|by right]. }
  destruct Hrj as (Hrsub & Hrnew & Hjnew). split.
  - split.
    + rewrite Ho. rewrite lookup_app_l; [done|]. by apply lookup_lt_Some in H1.
    + rewrite Hl. case_decide; [done|]. apply elem_of_app. by left.
    + intros a Ha. rewrite Hs. destruct (H3 a Ha). split; [done|]. by apply Hrsub.
    + intros l Hin Hc. apply H4; [|done]. rewrite Hl in Hin.
      case_decide; [done|].
      apply elem_of_app in Hin as [?| ->%list_elem_of_singleton]; [done|].
      cbn in Hc. congruence.
    + intros x Hx Htouch. destruct (Hrnew x Hx) as [Hold|[Hthen Hrej]]; [by apply H5|].
      destruct Htouch as [Hc|Hc]; [rewrite Hthen in Hc; cbn in Hc|]; congruence.
  - apply Forall_forall. intros j Hin.
    destruct (Hjnew j Hin) as [Hold|[s ->]].
    + by apply (proj1 (Forall_forall _ _) Hj).
    + destruct s; cbn; [split|]; congruence.
Qed.

(** X13. A second request does not withdraw the first: with two
    requests pending, one change event fulfils both promises, whatever
    elements they were made for. *)
Theorem overlapping_requests (w0 w : World) (fn : list string)
    (el1 opts1 el2 opts2 : JsVal) (r1 r2 : nat) (v1 v2 : JsVal) :
  select_fn w0 = Some fn →
  well_formed w →
  method_of w (request_target w el1) (requestFullscreen fn) = VFun r1 →
  host_fun w r1 (request_target w el1) [opts1] = Returns v1 →
  method_of w (request_target w el2) (requestFullscreen fn) = VFun r2 →
  host_fun w r2 (request_target w el2) [opts2] = Returns v2 →
  (∀ a, v1 = VPromise a ∨ v2 = VPromise a → settled w !! a = None) →
  ∃ p1 wa p2 wb,
    Fullscrn.request (fullscrn w0) el1 opts1 w = Normal p1 wa ∧
    Fullscrn.request (fullscrn w0) el2 opts2 wa = Normal p2 wb ∧
    p1 ≠ p2 ∧
    outcome p1 (run_tasks [] wb) = Some Pending ∧
    outcome p2 (run_tasks [] wb) = Some Pending ∧
    ∀ ts, outcome p1 (run_tasks (TDispatch (eventNames fn EvChange) :: ts) wb)
            = Some Fulfilled ∧
          outcome p2 (run_tasks (TDispatch (eventNames fn EvChange) :: ts) wb)
            = Some Fulfilled.
Proof.
  intros Hsel Hwf Hm1 Hr1 Hm2 Hr2 Hfresh. rewrite (fullscrn_supported _ _ Hsel). cbn.
  eexists _, _, _, _. split; [apply request_eq|]. split; [apply request_eq|].
  set (wa := request_world fn el1 opts1 w).
  set (wb := request_world fn el2 opts2 wa).
  destruct (request_world_host fn el1 opts1 w) as (Hp & Hop & Hhf & Hset).
  fold wa in Hp, Hop, Hhf, Hset.
  assert (Ht : request_target wa el2 = request_target w el2).
  { unfold request_target, doc_get. by rewrite Hp. }
  assert (Hm2' : method_of wa (request_target wa el2) (requestFullscreen fn) = VFun r2).
  { rewrite Ht. by rewrite (method_of_ext w wa). }
  assert (Hr2' : host_fun wa r2 (request_target wa el2) [opts2] = Returns v2).
  { by rewrite Ht, Hhf. }
  assert (Hc1 : waiting (eventNames fn EvChange)
                   (OnFullScreenEntered fn (length (outcomes w))) (length (outcomes w))
                   (awaitable_of v1) wa ∧
                 Forall (foreign_job (length (outcomes w))) (jobs wa)).
  { apply (request_waiting fn el1 opts1 w r1 v1 Hwf Hm1 Hr1).
    intros a ->. apply Hfresh. by left. }
  assert (Hc2 : waiting (eventNames fn EvChange)
                   (OnFullScreenEntered fn (length (outcomes wa))) (length (outcomes wa))
                   (awaitable_of v2) wb ∧
                 Forall (foreign_job (length (outcomes wa))) (jobs wb)).
  { apply (request_waiting fn el2 opts2 wa r2 v2 (well_formed_request _ _ _ _ Hwf) Hm2' Hr2').
    intros a ->. rewrite Hset. apply Hfresh. by right. }
  pose proof (waiting_request_other (eventNames fn EvChange)
                (OnFullScreenEntered fn (length (outcomes w))) (length (outcomes w))
                (awaitable_of v1) fn el2 opts2 wa r2 v2 eq_refl Hc1 Hm2' Hr2') as Hc1'.
  fold wb in Hc1'.
  assert (Hlen : length (outcomes wa) = S (length (outcomes w))).
  { destruct (request_world_returns fn el1 opts1 w r1 v1 Hm1 Hr1) as (Ho & _).
    fold wa in Ho. rewrite Ho, length_app. cbn. lia. }
  split; [lia|].
  destruct (calm_outcomes (eventNames fn EvChange)
              (OnFullScreenEntered fn (length (outcomes w)))
              (length (outcomes w)) (awaitable_of v1) eq_refl [] wb Hc1'
              (List.Forall_nil _)) as (Hp1 & Hf1 & _).
  destruct (calm_outcomes (eventNames fn EvChange)
              (OnFullScreenEntered fn (length (outcomes wa)))
              (length (outcomes wa)) (awaitable_of v2) eq_refl [] wb Hc2
              (List.Forall_nil _)) as (Hp2 & Hf2 & _).
  split; [exact Hp1|]. split; [exact Hp2|].
  intros ts. split; [exact (Hf1 ts)|exact (Hf2 ts)].
Qed.

Lemma overlapping_requests_witness :
  ∃ p1 wa p2 wb,
    Fullscrn.request (fullscrn standard_host) (VObj 4) VUndefined standard_host
      = Normal p1 wa ∧
    Fullscrn.request (fullscrn standard_host) (VObj 9) VNull wa = Normal p2 wb ∧
    p1 ≠ p2 ∧
    outcome p1 (run_tasks [TDispatch "fullscreenchange"] wb) = Some Fulfilled ∧
    outcome p2 (run_tasks [TDispatch "fullscreenchange"] wb) = Some Fulfilled.
Proof.
  destruct (overlapping_requests standard_host standard_host standard_fn
              (VObj 4) VUndefined (VObj 9) VNull 0 0 (VPromise 0) (VPromise 0) eq_refl)
    as (p1 & wa & p2 & wb & Ha & Hb & Hne & _ & _ & H).
  - apply well_formed_initial; reflexivity.
  - reflexivity.
  - reflexivity.
  - reflexivity.
  - reflexivity.
  - intros a _. reflexivity.
  - exists p1, wa, p2, wb. split; [exact Ha|]. split; [exact Hb|]. split; [exact Hne|].
    exact (H []).
Defined.

(** ** Hosts whose request operation returns no promise *)

(** Without a tracked promise every step but the change event is
    quiet. *)
Lemma first_change_event (ev : string) (ts : list Task) :
  TDispatch ev ∈ ts →
  ∃ ts1 ts2, ts = ts1 ++ TDispatch ev :: ts2 ∧ Forall (quiet ev None) ts1.
Proof.
  induction ts as [|t ts IH]; [by intros ?%elem_of_nil|].
  intros Hin.
  destruct (decide (decides ev None t = None)) as [Hq|Hd].
  - apply elem_of_cons in Hin as [<-|Hin].
    + unfold decides in Hq. by rewrite decide_True in Hq.
    + destruct (IH Hin) as (ts1 & ts2 & -> & Hts1).
      exists (t :: ts1), ts2. split; [done|]. by constructor.
  - exists [], ts. split; [|constructor].
    destruct t as [type|a s|k v|]; cbn in Hd; try done.
    case_decide; [by subst|done].
Qed.

Lemma no_change_event_quiet (ev : string) (ts : list Task) :
  TDispatch ev ∉ ts → Forall (quiet ev None) ts.
Proof.
  intros Hout. apply Forall_forall. intros t Hin. unfold quiet, decides.
  destruct t as [type|a s|k v|]; try done.
  case_decide; [|done]. subst type. by destruct Hout.
Qed.

(** X14. When the request operation returns something that is not a
    promise (as the WebKit-prefixed one does), nothing can reject the
    promise of [request]: it is fulfilled from the first change event
    on and pending until then, error events and settlements of host
    promises notwithstanding. *)
Theorem request_without_awaitable (w0 w : World) (fn : list string)
    (element options : JsVal) (r : nat) (v : JsVal) :
  select_fn w0 = Some fn →
  well_formed w →
  method_of w (request_target w element) (requestFullscreen fn) = VFun r →
  host_fun w r (request_target w element) [options] = Returns v →
  awaitable_of v = None →
  ∃ p w1,
    Fullscrn.request (fullscrn w0) element options w = Normal p w1 ∧
    reactions w1 = reactions w ∧
    ∀ ts,
      (TDispatch (eventNames fn EvChange) ∈ ts →
         outcome p (run_tasks ts w1) = Some Fulfilled) ∧
      (TDispatch (eventNames fn EvChange) ∉ ts →
         outcome p (run_tasks ts w1) = Some Pending).
Proof.
  intros Hsel Hwf Hm Hr Hv. rewrite (fullscrn_supported _ _ Hsel). cbn.
  rewrite request_eq. eexists _, _. split; [reflexivity|].
  assert (Hcalm : waiting (eventNames fn EvChange)
                    (OnFullScreenEntered fn (length (outcomes w))) (length (outcomes w))
                    None (request_world fn element options w) ∧
                  Forall (foreign_job (length (outcomes w)))
                    (jobs (request_world fn element options w))).
  { rewrite <- Hv. apply (request_waiting fn element options w r v Hwf Hm Hr).
    intros a ->. discriminate. }
  split.
  { destruct (request_world_returns fn element options w r v Hm Hr) as (_ & _ & _ & Hrest).
    rewrite Hv in Hrest. apply Hrest. }
  intros ts. split.
  - intros (ts1 & ts2 & -> & Hq)%first_change_event.
    by apply (calm_outcomes (eventNames fn EvChange)
                (OnFullScreenEntered fn (length (outcomes w)))
                (length (outcomes w)) None eq_refl ts1 _ Hcalm Hq).
  - intros Hq%no_change_event_quiet.
    by apply (calm_outcomes (eventNames fn EvChange)
                (OnFullScreenEntered fn (length (outcomes w)))
                (length (outcomes w)) None eq_refl ts _ Hcalm Hq).
Qed.

Lemma request_without_awaitable_witness :
  ∃ p w1,
    Fullscrn.request (fullscrn webkit_host) VUndefined VUndefined webkit_host
      = Normal p w1 ∧
    outcome p (run_tasks [TDispatch "webkitfullscreenerror"; TSettle 0 (SRejected VNull)] w1)
      = Some Pending.
Proof.
  destruct (request_without_awaitable webkit_host webkit_host webkit_fn
              VUndefined VUndefined 0 VUndefined eq_refl)
    as (p & w1 & Hreq & _ & H).
  - apply well_formed_initial; reflexivity.
  - reflexivity.
  - reflexivity.
  - reflexivity.
  - exists p, w1. split; [exact Hreq|].
    apply H. intros Hin.
    apply elem_of_cons in Hin as [Heq|Hin]; [discriminate|].
    apply elem_of_cons in Hin as [Heq|Hin]; [discriminate|].
    by apply elem_of_nil in Hin.
Defined.

(** ** The target of request *)

(** X15. An element passed to [request] is the receiver of the one host
    call, with the options as sole argument, and the root element plays
    no part; any falsy element ([null], [0], the empty string) is
    treated exactly like a missing one. *)
Theorem request_target_choice (w0 w : World) (fn : list string)
    (element options : JsVal) :
  select_fn w0 = Some fn →
  (truthy element = true →
     ∃ p w1, Fullscrn.request (fullscrn w0) element options w = Normal p w1 ∧
             calls w1 = calls w ++
               match method_of w element (requestFullscreen fn) with
               | VFun r => [mkCall r element [options]]
               | _ => []
               end) ∧
  (truthy element = false →
     Fullscrn.request (fullscrn w0) element options w =
     Fullscrn.request (fullscrn w0) VUndefined options w).
Proof.
  intros Hsel. rewrite (fullscrn_supported _ _ Hsel). cbn. split; intros Ht.
  - rewrite request_eq. eexists _, _. split; [reflexivity|].
    rewrite request_world_calls. unfold request_target. by rewrite Ht.
  - rewrite !request_eq. f_equal.
    unfold request_world, request_target. by rewrite Ht.
Qed.

Lemma request_target_choice_witness :
  (∃ p w1, Fullscrn.request (fullscrn standard_host) (VObj 4) (VStr "hide") standard_host
             = Normal p w1 ∧
           calls w1 = [mkCall 0 (VObj 4) [VStr "hide"]]) ∧
  Fullscrn.request (fullscrn standard_host) VNull (VStr "hide") standard_host =
  Fullscrn.request (fullscrn standard_host) VUndefined (VStr "hide") standard_host.
Proof.
  destruct (request_target_choice standard_host standard_host standard_fn
              (VObj 4) (VStr "hide") eq_refl) as [H1 _].
  destruct (request_target_choice standard_host standard_host standard_fn
              VNull (VStr "hide") eq_refl) as [_ H2].
  split; [exact (H1 eq_refl)|exact (H2 eq_refl)].
Defined.

(** ** The WebKit row *)

(** X16. A host that has only the WebKit-prefixed exit operation gets a
    working facade that speaks WebKit throughout: the accessors read
    the prefixed properties, [onchange] and [onerror] subscribe to the
    prefixed events, [request] calls the prefixed operation of the
    element and [exit] the prefixed operation of the document. *)
Theorem webkit_only_host (w0 : World) (f : nat) :
  props w0 !! "exitFullscreen" = None →
  props w0 !! "webkitExitFullscreen" = Some (VFun f) →
  let F := fullscrn w0 in
  (∀ w, Fullscrn.element F w = doc_get w "webkitFullscreenElement" ∧
        Fullscrn.isFullscreen F w = truthy (doc_get w "webkitFullscreenElement") ∧
        Fullscrn.isEnabled F w = truthy (doc_get w "webkitFullscreenEnabled")) ∧
  (∀ cb w, ∃ u, Fullscrn.onchange F cb w
                  = Normal u (world_of (addEventListener "webkitfullscreenchange" cb w))) ∧
  (∀ cb w, ∃ u, Fullscrn.onerror F cb w
                  = Normal u (world_of (addEventListener "webkitfullscreenerror" cb w))) ∧
  (∀ el opts w r, truthy el = true →
     method_of w el "webkitRequestFullscreen" = VFun r →
     ∃ p w1, Fullscrn.request F el opts w = Normal p w1 ∧
             calls w1 = calls w ++ [mkCall r el [opts]]) ∧
  (∀ w r, truthy (doc_get w "webkitFullscreenElement") = true →
     doc_get w "webkitExitFullscreen" = VFun r →
     ∃ p w1, Fullscrn.exit F w = Normal p w1 ∧
             calls w1 = calls w ++ [mkCall r VDocument []]).
Proof.
  intros H1 H2 F.
  assert (Hsel : select_fn w0 = Some webkit_fn).
  { apply select_fn_second; unfold doc_get; [by rewrite H1|by rewrite H2]. }
  subst F. split; [|split; [|split; [|split]]].
  - intros w. by rewrite (fullscrn_supported _ _ Hsel).
  - intros cb w. rewrite (fullscrn_supported _ _ Hsel). by eexists.
  - intros cb w. rewrite (fullscrn_supported _ _ Hsel). by eexists.
  - intros el opts w r Ht Hm. rewrite (fullscrn_supported _ _ Hsel). cbn.
    rewrite request_eq. eexists _, _. split; [reflexivity|].
    rewrite request_world_calls. unfold request_target. rewrite Ht.
    change (requestFullscreen webkit_fn) with "webkitRequestFullscreen".
    by rewrite Hm.
  - intros w r Hfs Hm. rewrite (fullscrn_supported _ _ Hsel). cbn.
    rewrite exit_eq. eexists _, _. split; [reflexivity|].
    rewrite exit_world_calls by exact Hfs.
    change (exitFullscreen webkit_fn) with "webkitExitFullscreen".
    by rewrite Hm.
Qed.

Lemma webkit_only_host_witness :
  ∃ p w1, Fullscrn.request (fullscrn webkit_host) (VObj 4) VUndefined webkit_host
            = Normal p w1 ∧
          calls w1 = [mkCall 0 (VObj 4) [VUndefined]].
Proof.
  pose proof (webkit_only_host webkit_host 1 eq_refl eq_refl) as H.
  cbv zeta in H. destruct H as (_ & _ & _ & Hreq & _).
  exact (Hreq (VObj 4) VUndefined webkit_host 0 eq_refl eq_refl).
Defined.

(** ** The accessors and the host *)

Lemma exit_world_props (fn : list string) (w : World) :
  props (exit_world fn w) = props w.
Proof.
  assert (Hs : ∀ q s w', props (settle_outcome q s w') = props w').
  { intros q s w'. apply settle_outcome_fields. }
  unfold exit_world.
  destruct (negb (isFullscreen fn w)); [by rewrite Hs|].
  destruct (doc_get w (exitFullscreen fn)); try by rewrite Hs.
  destruct (host_fun w r VDocument []) as [v|e]; [|by rewrite Hs].
  destruct v; try done. unfold then_catch. cbn. by destruct (settled w !! a).
Qed.

(** X17. The facade only reads the document: [request], [exit],
    [toggle], [onchange], [onerror] and the unsubscribe functions leave
    every property of the document as it was, so [element],
    [isFullscreen] and [isEnabled] report the same right after the call
    as before it. *)
Theorem facade_never_writes_document (w0 w : World) (fn : list string)
    (el options : JsVal) (cb : Callback) (event : EventName) :
  select_fn w0 = Some fn →
  let F := fullscrn w0 in
  let same (w' : World) :=
    props w' = props w ∧
    Fullscrn.element F w' = Fullscrn.element F w ∧
    Fullscrn.isFullscreen F w' = Fullscrn.isFullscreen F w ∧
    Fullscrn.isEnabled F w' = Fullscrn.isEnabled F w in
  same (world_of (Fullscrn.request F el options w)) ∧
  same (world_of (Fullscrn.exit F w)) ∧
  same (world_of (Fullscrn.toggle F el options w)) ∧
  same (world_of (Fullscrn.onchange F cb w)) ∧
  same (world_of (Fullscrn.onerror F cb w)) ∧
  same (world_of (Fullscrn._off F event cb w)).
Proof.
  intros Hsel. cbv zeta. rewrite (fullscrn_supported _ _ Hsel).
  unfold Fullscrn.element, Fullscrn.isFullscreen, Fullscrn.isEnabled,
    Fullscrn.request, Fullscrn.exit, Fullscrn.toggle, Fullscrn.onchange,
    Fullscrn.onerror, Fullscrn._off.
  assert (Hsame : ∀ w', props w' = props w →
            props w' = props w ∧ element fn w' = element fn w ∧
            isFullscreen fn w' = isFullscreen fn w ∧ isEnabled fn w' = isEnabled fn w).
  { intros w' Hp. unfold element, isFullscreen, isEnabled, doc_get. by rewrite Hp. }
  assert (Hreq : props (world_of (request fn el options w)) = props w).
  { rewrite request_eq. cbn. apply request_world_host. }
  assert (Hexit : props (world_of (exit fn w)) = props w).
  { rewrite exit_eq. cbn. apply exit_world_props. }
  split; [by apply Hsame|]. split; [by apply Hsame|].
  split; [apply Hsame; unfold toggle; by destruct (isFullscreen fn w)|].
  split; [by apply Hsame|]. split; [by apply Hsame|].
  apply Hsame. unfold _off. by destruct (truthy (VStr (eventNames fn event))).
Qed.

Lemma facade_never_writes_document_witness :
  Fullscrn.isFullscreen (fullscrn standard_host)
    (world_of (Fullscrn.request (fullscrn standard_host) VUndefined VUndefined standard_host))
  = false.
Proof.
  pose proof (facade_never_writes_document standard_host standard_host standard_fn
                VUndefined VUndefined (UserCb 0) EvChange eq_refl) as H.
  cbv zeta in H. destruct H as ((_ & _ & Hfs & _) & _). exact Hfs.
Defined.

(** X18. The accessors are computed from the host each time they are
    read: once the host has set its element property to [v], [element]
    is [v] and [isFullscreen] its truthiness, and once the host has
    removed the property, [element] is [undefined] and [isFullscreen]
    false; [toggle] goes by the value of that moment. *)
Theorem accessors_follow_host (w0 w : World) (fn : list string) (v : JsVal) :
  select_fn w0 = Some fn →
  let F := fullscrn w0 in
  let w1 := run_task (TSetProp (fullscreenElement fn) (Some v)) w in
  let w2 := run_task (TSetProp (fullscreenElement fn) None) w in
  Fullscrn.element F w1 = v ∧
  Fullscrn.isFullscreen F w1 = truthy v ∧
  Fullscrn.element F w2 = VUndefined ∧
  Fullscrn.isFullscreen F w2 = false ∧
  (truthy v = true → ∀ el opts, Fullscrn.toggle F el opts w1 = Fullscrn.exit F w1).
Proof.
  intros Hsel. cbv zeta. rewrite (fullscrn_supported _ _ Hsel).
  unfold Fullscrn.element, Fullscrn.isFullscreen, Fullscrn.toggle, Fullscrn.exit.
  set (w1 := run_task (TSetProp (fullscreenElement fn) (Some v)) w).
  set (w2 := run_task (TSetProp (fullscreenElement fn) None) w).
  assert (H1 : doc_get w1 (fullscreenElement fn) = v).
  { subst w1. unfold doc_get, run_task, step.
    destruct (drain_fields (set_props (λ m, <[fullscreenElement fn := v]> m) w))
      as (-> & _). cbn. by rewrite lookup_insert_eq. }
  assert (H2 : doc_get w2 (fullscreenElement fn) = VUndefined).
  { subst w2. unfold doc_get, run_task, step.
    destruct (drain_fields (set_props (λ m, delete (fullscreenElement fn) m) w))
      as (-> & _). cbn. by rewrite lookup_delete_eq. }
  unfold element, isFullscreen, toggle. rewrite H1, H2.
  repeat split; try done. intros Ht el opts.
  unfold isFullscreen. by rewrite H1, Ht.
Qed.

Lemma accessors_follow_host_witness :
  let w1 := run_task (TSetProp "fullscreenElement" (Some (VObj 7))) standard_host in
  Fullscrn.isFullscreen (fullscrn standard_host) standard_host = false ∧
  Fullscrn.isFullscreen (fullscrn standard_host) w1 = true ∧
  Fullscrn.toggle (fullscrn standard_host) VUndefined VUndefined w1
    = Fullscrn.exit (fullscrn standard_host) w1.
Proof.
  pose proof (accessors_follow_host standard_host standard_host standard_fn (VObj 7)
                eq_refl) as H.
  cbv zeta in H. destruct H as (_ & Hfs & _ & _ & Htoggle).
  cbv zeta. split; [reflexivity|]. split; [exact Hfs|].
  exact (Htoggle eq_refl VUndefined VUndefined).
Defined.
